(** * ExistentialSpecializer: specialization of functions with existential
    arguments

    A shallow embedding of
    [lib/SILOptimizer/FunctionSignatureTransforms/ExistentialSpecializer.cpp]:
    the callee filter [canSpecializeCalleeFunction], the per-argument analysis
    [canSpecializeExistentialArgsInFunction] with its helper
    [findIfCalleeUsesArgInDestroyUse], and the per-call-site loop
    [specializeExistentialArgsInAppliesWithinFunction].

    The C++ code reads the SIL module through pointers and reports its
    effects to the pass manager.  Here the module is a finite map from
    function names to functions, a [SILFunction*] is a name looked up in
    that map, and the pass runs in a state-and-failure monad over the module,
    the statistic counter and the messages sent to the pass manager. *)

From stdpp Require Import base option list strings gmap fin_maps.

Set Default Proof Using "Type".

(** ** Enumerations of the SIL headers

    The headers that declare these enumerations are not part of this file's
    translation unit; each is listed with the enumerators the pass names and
    the remaining ones of the SIL data model. *)

(** [Inline_t]: the pass only compares against [AlwaysInline]. *)
Module Inline_t.
Inductive t := InlineDefault | NoInline | AlwaysInline.
#[global] Instance Inline_t_eq_dec : EqDecision t.
Proof. solve_decision. Defined.
End Inline_t.

(** [SILLinkage] with [isAvailableExternally]: "public_external or higher
    linkage", as the comment in [canSpecializeCalleeFunction] puts it. *)
Module SILLinkage.
Inductive t :=
| Public | PublicNonABI | Hidden | Shared | Private
| PublicExternal | HiddenExternal | SharedExternal | PrivateExternal.
#[global] Instance SILLinkage_eq_dec : EqDecision t.
Proof. solve_decision. Defined.
End SILLinkage.

Definition isAvailableExternally (L : SILLinkage.t) : bool :=
  match L with
  | SILLinkage.PublicExternal | SILLinkage.HiddenExternal
  | SILLinkage.SharedExternal | SILLinkage.PrivateExternal => true
  | _ => false
  end.

(** [SILFunctionTypeRepresentation]: the pass singles out [ObjCMethod] and
    [Block]; every other enumerator takes the [default] branch. *)
Module SILFunctionTypeRepresentation.
Inductive t :=
| Thick | Block | Thin | CFunctionPointer
| Method | ObjCMethod | WitnessMethod | Closure.
#[global] Instance SILFunctionTypeRepresentation_eq_dec : EqDecision t.
Proof. solve_decision. Defined.
End SILFunctionTypeRepresentation.

(** [ExistentialRepresentation]: the closed set of representation kinds.
    The pass proceeds for [Opaque] and [Class] only. *)
Module ExistentialRepresentation.
Inductive t := NoRepresentation | Opaque | Class | Metatype | Boxed.
#[global] Instance ExistentialRepresentation_eq_dec : EqDecision t.
Proof. solve_decision. Defined.
End ExistentialRepresentation.

(** [OpenedExistentialAccess]: two enumerators. *)
Module OpenedExistentialAccess.
Inductive t := Immutable | Mutable.
#[global] Instance OpenedExistentialAccess_eq_dec : EqDecision t.
Proof. solve_decision. Defined.
End OpenedExistentialAccess.

(** [SILAnalysis::InvalidationKind]: the pass only sends [Everything]. *)
Module InvalidationKind.
Inductive t := Nothing | Instructions | Calls | Branches | Everything.
#[global] Instance InvalidationKind_eq_dec : EqDecision t.
Proof. solve_decision. Defined.
End InvalidationKind.

(** Modelled from the spec: the parameter-convention provider of the
    function-type header, [conventionOf(calleeSignature, index) ->
    {indirectMutating, consumed, borrowed, direct}], with the two queries the
    pass makes of a [SILParameterInfo]. *)
Module ParameterConvention.
Inductive t := IndirectMutating | Consumed | Borrowed | Direct.
#[global] Instance ParameterConvention_eq_dec : EqDecision t.
Proof. solve_decision. Defined.
End ParameterConvention.

Record SILParameterInfo := mkSILParameterInfo {
  getConvention : ParameterConvention.t
}.

Definition isIndirectMutating (p : SILParameterInfo) : bool :=
  bool_decide (getConvention p = ParameterConvention.IndirectMutating).

Definition isConsumed (p : SILParameterInfo) : bool :=
  bool_decide (getConvention p = ParameterConvention.Consumed).

(** [IsSerialized_t], the serialization state handed to the mangler. *)
Module IsSerialized_t.
Inductive t := IsNotSerialized | IsSerializable | IsSerialized.
End IsSerialized_t.

(** ** Types, values and instructions *)

(** A SIL value is referred to by its name in the printed IR. *)
Abbreviation SILValue := string.

(** The AST type behind a SIL type, with the one query the pass makes of
    it.  A null [CanType] is [None : option CanType]. *)
Record CanType := mkCanType {
  TypeName : string;
  isAny : bool
}.

Record SILType := mkSILType {
  getASTType : CanType;
  isExistentialType : bool;
  isAnyObject : bool;
  getPreferredExistentialRepresentation : ExistentialRepresentation.t
}.

(** What every apply site carries: the callee (a [function_ref] to a named
    function, or [None] for any other callee value), the argument operands,
    the parameters of the original callee type, and the callee-side index of
    the first applied argument (an accessor of the apply-site header, kept
    here as an attribute of the site). *)
Record ApplySiteData := mkApplySiteData {
  CalleeFunctionRef : option string;
  ArgumentOperands : list SILValue;
  OrigCalleeParameters : list SILParameterInfo;
  CalleeArgIndexOfFirstAppliedArg : nat
}.

Inductive SILInstruction :=
| ApplyInst (site : ApplySiteData)
| TryApplyInst (site : ApplySiteData)
| BeginApplyInst (site : ApplySiteData)
| PartialApplyInst (site : ApplySiteData)
| DestroyAddrInst (operand : SILValue)
| OtherInst (opcode : string) (operands : list SILValue).

Definition isa_DestroyAddrInst (I : SILInstruction) : bool :=
  match I with DestroyAddrInst _ => true | _ => false end.

(** An operand: the value used and the instruction using it. *)
Record Operand := mkOperand {
  get : SILValue;
  getUser : SILInstruction
}.

(** A function argument with its use list. *)
Record SILFunctionArgument := mkSILFunctionArgument {
  getType : SILType;
  getUses : list Operand
}.

Record SILBasicBlock := mkSILBasicBlock {
  getFunctionArguments : list SILFunctionArgument;
  Instructions : list SILInstruction
}.

Record SILFunction := mkSILFunction {
  getName : string;
  shouldOptimize : bool;
  Blocks : list SILBasicBlock;
  hasIndirectSILResults : bool;
  hasErrorResult : bool;
  getInlineStrategy : Inline_t.t;
  getLinkage : SILLinkage.t;
  getRepresentation : SILFunctionTypeRepresentation.t;
  isSerialized : IsSerialized_t.t
}.

(** Modelled from the spec: [isDefinition] of the function header; a callee
    that "has no body (declaration-only / externally defined)" is not a
    definition, so a definition is a function with at least one block. *)
Definition isDefinition (F : SILFunction) : bool :=
  match Blocks F with [] => false | _ :: _ => true end.

(** The three kinds of full apply sites; [FullApplySite::isa] is null on
    every other instruction. *)
Inductive FullApplyKind := IsApply | IsTryApply | IsBeginApply.

Record FullApplySite := mkFullApplySite {
  Kind : FullApplyKind;
  Site : ApplySiteData
}.

Definition FullApplySite_isa (I : SILInstruction) : option FullApplySite :=
  match I with
  | ApplyInst s => Some (mkFullApplySite IsApply s)
  | TryApplyInst s => Some (mkFullApplySite IsTryApply s)
  | BeginApplyInst s => Some (mkFullApplySite IsBeginApply s)
  | _ => None
  end.

Definition getInstruction (Apply : FullApplySite) : SILInstruction :=
  match Kind Apply with
  | IsApply => ApplyInst (Site Apply)
  | IsTryApply => TryApplyInst (Site Apply)
  | IsBeginApply => BeginApplyInst (Site Apply)
  end.

Definition getCalleeArgIndexOfFirstAppliedArg (Apply : FullApplySite) : nat :=
  CalleeArgIndexOfFirstAppliedArg (Site Apply).

(** A [SILFunction*]: the name of a function of the module, or null. *)
Abbreviation SILFunctionPtr := (option string).

(** ** Descriptors *)

Record ExistentialTransformArgumentDescriptor := mkETAD {
  AccessType : OpenedExistentialAccess.t;
  DestroyAddrUse : bool
}.

(** The positional descriptor of function-signature optimization,
    constructed from the function argument it describes. *)
Record ArgumentDescriptor := mkArgumentDescriptor {
  Arg : SILFunctionArgument
}.

Record FunctionSignatureSpecializationMangler := mkMangler {
  ManglerPass : string;
  ManglerSerialized : IsSerialized_t.t;
  ManglerFunction : SILFunctionPtr
}.

(** The transform object: what its constructor receives, and the specialized
    function it produced ([NewF], null until [run] succeeds). *)
Record ExistentialTransform := mkExistentialTransform {
  ET_F : SILFunctionPtr;
  ET_Mangler : FunctionSignatureSpecializationMangler;
  ET_ArgumentDescList : list ArgumentDescriptor;
  ET_ExistentialArgDescriptor : gmap nat ExistentialTransformArgumentDescriptor;
  NewF : SILFunctionPtr
}.

Definition getExistentialSpecializedFunction (ET : ExistentialTransform)
  : SILFunctionPtr := NewF ET.

(** ** The state of a run of the pass *)

(** The module, the pass option, the statistic
    [NumFunctionsWithExistentialArgsSpecialized], and the two kinds of
    message sent to the pass manager: functions added to its worklist (with
    the function they derive from) and invalidated analyses.  The width of
    the statistic is not fixed by this file; it is a natural number. *)
Record PassState := mkPassState {
  Functions : gmap string SILFunction;
  OptionExistentialSpecializer : bool;
  NumFunctionsWithExistentialArgsSpecialized : nat;
  Worklist : list (SILFunctionPtr * SILFunctionPtr);
  Invalidated : list (SILFunctionPtr * InvalidationKind.t)
}.

(** How a run can stop early: a null pointer or an end iterator dereferenced,
    a failed [assert], or an array indexed out of range. *)
Inductive Fatal := InvalidDereference | AssertionFailure | IndexOutOfRange.

Inductive Outcome (A : Type) :=
| Done (a : A) (st : PassState)
| Crash (f : Fatal).
Arguments Done {A} a st.
Arguments Crash {A} f.

Definition Pass (A : Type) : Type := PassState -> Outcome A.

#[global] Instance Pass_ret : MRet Pass := fun A a st => Done a st.
#[global] Instance Pass_bind : MBind Pass := fun A B f m st =>
  match m st with
  | Done a st' => f a st'
  | Crash e => Crash e
  end.

Definition getState : Pass PassState := fun st => Done st st.
Definition crash {A} (e : Fatal) : Pass A := fun _ => Crash e.

Definition Assert (b : bool) : Pass unit :=
  if b then mret tt else crash AssertionFailure.

(** [for (unsigned Idx = first, Num = first + n; Idx < Num; ++Idx)], the loop
    state threaded through the body. *)
Fixpoint forIndices {T} (body : nat -> T -> Pass T) (Idx n : nat) (s : T)
  : Pass T :=
  match n with
  | 0 => mret s
  | S n' => s' ← body Idx s; forIndices body (S Idx) n' s'
  end.

(** ** Access to the module through pointers *)

(** [Apply.getReferencedFunction()]: the function the callee refers to
    directly, null when there is none. *)
Definition getReferencedFunction (Apply : FullApplySite)
  : Pass SILFunctionPtr :=
  st ← getState;
  mret (match CalleeFunctionRef (Site Apply) with
        | Some n => if Functions st !! n is Some _ then Some n else None
        | None => None
        end).

(** [*P] for a [SILFunction *P]. *)
Definition deref (P : SILFunctionPtr) : Pass SILFunction :=
  st ← getState;
  match P with
  | Some n =>
      match Functions st !! n with
      | Some F => mret F
      | None => crash InvalidDereference
      end
  | None => crash InvalidDereference
  end.

(** [*F->begin()]: the entry block. *)
Definition begin (F : SILFunction) : Pass SILBasicBlock :=
  match Blocks F with
  | B :: _ => mret B
  | [] => crash InvalidDereference
  end.

(** [Apply.getArgumentRef(Idx)]. *)
Definition getArgumentRef (Apply : FullApplySite) (Idx : nat) : Pass Operand :=
  match ArgumentOperands (Site Apply) !! Idx with
  | Some v => mret (mkOperand v (getInstruction Apply))
  | None => crash IndexOutOfRange
  end.

(** [Apply.getOrigCalleeConv()] and [getParamInfoForSILArg(Idx)] on it. *)
Definition getOrigCalleeConv (Apply : FullApplySite) : list SILParameterInfo :=
  OrigCalleeParameters (Site Apply).

Definition getParamInfoForSILArg (Conv : list SILParameterInfo) (Idx : nat)
  : Pass SILParameterInfo :=
  match Conv !! Idx with
  | Some p => mret p
  | None => crash IndexOutOfRange
  end.

(** [A[Idx]] on an [ArrayRef]. *)
Definition index {A} (l : list A) (Idx : nat) : Pass A :=
  match l !! Idx with
  | Some a => mret a
  | None => crash IndexOutOfRange
  end.

(** ** The pass *)

(** [findIfCalleeUsesArgInDestroyUse]: walk the use list of [Arg]; at the
    first user that is a [destroy_addr], set the flag and leave the loop. *)
Fixpoint findIfCalleeUsesArgInDestroyUse_uses (Uses : list Operand)
    (ETAD : ExistentialTransformArgumentDescriptor)
  : ExistentialTransformArgumentDescriptor :=
  match Uses with
  | [] => ETAD
  | ArgUse :: Uses' =>
      let ArgUser := getUser ArgUse in
      if isa_DestroyAddrInst ArgUser
      then mkETAD (AccessType ETAD) true
      else findIfCalleeUsesArgInDestroyUse_uses Uses' ETAD
  end.

Definition findIfCalleeUsesArgInDestroyUse (Arg : SILFunctionArgument)
    (ETAD : ExistentialTransformArgumentDescriptor)
  : ExistentialTransformArgumentDescriptor :=
  findIfCalleeUsesArgInDestroyUse_uses (getUses Arg) ETAD.

(** [canSpecializeCalleeFunction]. *)
Definition canSpecializeCalleeFunction (Apply : FullApplySite) : Pass bool :=
  Callee ← getReferencedFunction Apply;
  if Callee is None then mret false else
  F ← deref Callee;
  if negb (shouldOptimize F) then mret false else
  if negb (isDefinition F) then mret false else
  if hasIndirectSILResults F then mret false else
  if hasErrorResult F then mret false else
  if bool_decide (getInlineStrategy F = Inline_t.AlwaysInline)
  then mret false else
  if isAvailableExternally (getLinkage F) then mret false else
  match getRepresentation F with
  | SILFunctionTypeRepresentation.ObjCMethod
  | SILFunctionTypeRepresentation.Block => mret false
  | _ => mret true
  end.

Section ExistentialSpecializer.

(** The collaborators of the pass, defined in other files: the resolver of
    concrete types, [ConcreteExistentialInfo(Value, User).ConcreteType],
    which reads the module, and [ExistentialTransform::run], which rewrites
    it and reports whether it changed anything. *)
Variable ConcreteExistentialInfo :
  gmap string SILFunction -> SILValue -> SILInstruction -> option CanType.
Variable ExistentialTransform_run :
  ExistentialTransform -> gmap string SILFunction ->
  bool * ExistentialTransform * gmap string SILFunction.

(** The [SmallDenseMap<int, ExistentialTransformArgumentDescriptor>].  Its
    keys are indices of function arguments ([unsigned] in the loop, [int] as
    keys); they are natural numbers here, the number of arguments of a
    function being nowhere near the bounds of either type. *)
Local Abbreviation ArgDescriptorMap :=
  (gmap nat ExistentialTransformArgumentDescriptor).

(** The body of the loop of [canSpecializeExistentialArgsInFunction] for one
    index; the loop state is [returnFlag] and the descriptor map. *)
Definition canSpecializeExistentialArg (Apply : FullApplySite)
    (CalleeArgs : list SILFunctionArgument)
    (origCalleeConv : list SILParameterInfo)
    (Idx : nat) (s : bool * ArgDescriptorMap)
  : Pass (bool * ArgDescriptorMap) :=
  let '(returnFlag, ExistentialArgDescriptor) := s in
  CalleeArg ← index CalleeArgs Idx;
  let ArgType := getType CalleeArg in
  let SwiftArgType := getASTType ArgType in
  if negb (isExistentialType ArgType) || isAnyObject ArgType
     || isAny SwiftArgType
  then mret s else
  let ExistentialRepr :=
    getPreferredExistentialRepresentation (getType CalleeArg) in
  if bool_decide (ExistentialRepr ≠ ExistentialRepresentation.Opaque)
     && bool_decide (ExistentialRepr ≠ ExistentialRepresentation.Class)
  then mret s else
  ArgOper ← getArgumentRef Apply Idx;
  st ← getState;
  let ConcreteType :=
    ConcreteExistentialInfo (Functions st) (get ArgOper) (getUser ArgOper) in
  if ConcreteType is None then mret s else
  paramInfo ← getParamInfoForSILArg origCalleeConv Idx;
  let ETAD :=
    mkETAD (if isIndirectMutating paramInfo || isConsumed paramInfo
            then OpenedExistentialAccess.Mutable
            else OpenedExistentialAccess.Immutable)
           false in
  CalleeArg' ← index CalleeArgs Idx;
  let ETAD :=
    if bool_decide (getPreferredExistentialRepresentation (getType CalleeArg')
                    ≠ ExistentialRepresentation.Class)
    then findIfCalleeUsesArgInDestroyUse CalleeArg ETAD
    else ETAD in
  mret (returnFlag || true, <[Idx := ETAD]> ExistentialArgDescriptor).

(** [canSpecializeExistentialArgsInFunction]; the descriptor map is passed
    by reference, so it comes in and goes out. *)
Definition canSpecializeExistentialArgsInFunction (Apply : FullApplySite)
    (ExistentialArgDescriptor : ArgDescriptorMap)
  : Pass (bool * ArgDescriptorMap) :=
  P ← getReferencedFunction Apply;
  F ← deref P;
  Entry ← begin F;
  let CalleeArgs := getFunctionArguments Entry in
  let returnFlag := false in
  let origCalleeConv := getOrigCalleeConv Apply in
  Assert (bool_decide (getCalleeArgIndexOfFirstAppliedArg Apply = 0));;
  forIndices (canSpecializeExistentialArg Apply CalleeArgs origCalleeConv)
             0 (length CalleeArgs) (returnFlag, ExistentialArgDescriptor).

(** [ArgumentDescList]: one [emplace_back(Args[i], Allocator)] for every
    [i] of [indices(Args)]. *)
Definition buildArgumentDescList (Args : list SILFunctionArgument)
  : Pass (list ArgumentDescriptor) :=
  forIndices
    (fun i ArgumentDescList =>
       a ← index Args i;
       mret (ArgumentDescList ++ [mkArgumentDescriptor a]))
    0 (length Args) [].

(** The first part of the body of the loop over the instructions of the
    caller: the checks, each of which may [continue], and the construction of
    the [ExistentialTransform] instance.  [None] is [continue]. *)
Definition prepareExistentialTransform (I : SILInstruction)
  : Pass (option (SILFunctionPtr * ExistentialTransform)) :=
  match FullApplySite_isa I with
  | None => mret None
  | Some Apply =>
      ok ← canSpecializeCalleeFunction Apply;
      if negb ok then mret None else
      Callee ← getReferencedFunction Apply;
      '(ok, ExistentialArgDescriptor) ←
        canSpecializeExistentialArgsInFunction Apply ∅;
      if negb ok then mret None else
      CalleeF ← deref Callee;
      let Mangler :=
        mkMangler "FunctionSignatureOpts" (isSerialized CalleeF) Callee in
      Entry ← begin CalleeF;
      let Args := getFunctionArguments Entry in
      ArgumentDescList ← buildArgumentDescList Args;
      mret (Some (Callee,
                  mkExistentialTransform Callee Mangler ArgumentDescList
                                         ExistentialArgDescriptor None))
  end.

(** [ET.run()] on the module of the state. *)
Definition runExistentialTransform (ET : ExistentialTransform)
  : Pass (bool * ExistentialTransform) :=
  fun st =>
    let '(Changed, ET', M') := ExistentialTransform_run ET (Functions st) in
    Done (Changed, ET')
         (mkPassState M' (OptionExistentialSpecializer st)
                      (NumFunctionsWithExistentialArgsSpecialized st)
                      (Worklist st) (Invalidated st)).

(** [++NumFunctionsWithExistentialArgsSpecialized]. *)
Definition incrementNumFunctionsWithExistentialArgsSpecialized : Pass unit :=
  fun st =>
    Done tt (mkPassState (Functions st) (OptionExistentialSpecializer st)
                         (S (NumFunctionsWithExistentialArgsSpecialized st))
                         (Worklist st) (Invalidated st)).

Definition addFunctionToPassManagerWorklist (F DerivedFrom : SILFunctionPtr)
  : Pass unit :=
  fun st =>
    Done tt (mkPassState (Functions st) (OptionExistentialSpecializer st)
                         (NumFunctionsWithExistentialArgsSpecialized st)
                         (Worklist st ++ [(F, DerivedFrom)])
                         (Invalidated st)).

Definition invalidateAnalysis (F : SILFunctionPtr) (K : InvalidationKind.t)
  : Pass unit :=
  fun st =>
    Done tt (mkPassState (Functions st) (OptionExistentialSpecializer st)
                         (NumFunctionsWithExistentialArgsSpecialized st)
                         (Worklist st)
                         (Invalidated st ++ [(F, K)])).

(** The second part of the body of the loop: run the transform and, when
    it changed something, do the bookkeeping. *)
Definition finishExistentialTransform (Callee : SILFunctionPtr)
    (ET : ExistentialTransform) : Pass unit :=
  '(Changed, ET) ← runExistentialTransform ET;
  if Changed : bool then
    incrementNumFunctionsWithExistentialArgsSpecialized;;
    addFunctionToPassManagerWorklist
      (getExistentialSpecializedFunction ET) Callee;;
    invalidateAnalysis Callee InvalidationKind.Everything
  else mret tt.

(** The whole body of the loop over the instructions, for one instruction. *)
Definition specializeExistentialArgsInApply (I : SILInstruction) : Pass unit :=
  prepared ← prepareExistentialTransform I;
  match prepared with
  | None => mret tt
  | Some (Callee, ET) => finishExistentialTransform Callee ET
  end.

Fixpoint forEach {A} (body : A -> Pass unit) (l : list A) : Pass unit :=
  match l with
  | [] => mret tt
  | a :: l' => body a;; forEach body l'
  end.

(** [specializeExistentialArgsInAppliesWithinFunction]: every instruction of
    every block of [F], in layout order.  The walk here is over the blocks
    and instructions [F] has when the loop starts; the source walks the
    lists of the function in place, which is the same walk as long as the
    transform leaves the function that is walked as it is. *)
Definition specializeExistentialArgsInAppliesWithinFunction (F : SILFunction)
  : Pass unit :=
  forEach (fun BB => forEach specializeExistentialArgsInApply (Instructions BB))
          (Blocks F).

(** [run]: nothing happens for a function that should not be optimized or
    when the pass is switched off. *)
Definition run (P : SILFunctionPtr) : Pass unit :=
  F ← deref P;
  st ← getState;
  if negb (shouldOptimize F) || negb (OptionExistentialSpecializer st)
  then mret tt
  else specializeExistentialArgsInAppliesWithinFunction F.

End ExistentialSpecializer.

(** ** What the statements below observe *)

(** The function an apply site refers to, read in the module [M]: its name
    and the function itself. *)
Definition referencedFunction (M : gmap string SILFunction)
    (Apply : FullApplySite) : option (string * SILFunction) :=
  n ← CalleeFunctionRef (Site Apply);
  F ← M !! n;
  Some (n, F).

(** The function arguments of the entry block of that function. *)
Definition calleeArguments (M : gmap string SILFunction)
    (Apply : FullApplySite) : option (list SILFunctionArgument) :=
  nF ← referencedFunction M Apply;
  B ← head (Blocks nF.2);
  Some (getFunctionArguments B).

(** Whether the type of a callee argument lets the analysis go on to the
    call site: existential, neither [AnyObject] nor [Any], and represented
    as [Opaque] or [Class]. *)
Definition specializableType (T : SILType) : bool :=
  isExistentialType T && negb (isAnyObject T) && negb (isAny (getASTType T))
  && (bool_decide (getPreferredExistentialRepresentation T
                   = ExistentialRepresentation.Opaque)
      || bool_decide (getPreferredExistentialRepresentation T
                      = ExistentialRepresentation.Class)).

(** Whether some use of a callee argument is a [destroy_addr]. *)
Definition usedInDestroyAddr (a : SILFunctionArgument) : bool :=
  existsb (fun u => isa_DestroyAddrInst (getUser u)) (getUses a).

(** The descriptor recorded for index [Idx] of the callee arguments
    [CalleeArgs] at the call site [Apply], when one is recorded. *)
Definition descriptorAt
    (resolve : gmap string SILFunction -> SILValue -> SILInstruction ->
               option CanType)
    (M : gmap string SILFunction) (Apply : FullApplySite)
    (CalleeArgs : list SILFunctionArgument) (Idx : nat)
  : option ExistentialTransformArgumentDescriptor :=
  a ← CalleeArgs !! Idx;
  if specializableType (getType a) then
    v ← ArgumentOperands (Site Apply) !! Idx;
    _ ← resolve M v (getInstruction Apply);
    p ← getOrigCalleeConv Apply !! Idx;
    Some (mkETAD
            (if isIndirectMutating p || isConsumed p
             then OpenedExistentialAccess.Mutable
             else OpenedExistentialAccess.Immutable)
            (bool_decide (getPreferredExistentialRepresentation (getType a)
                          = ExistentialRepresentation.Opaque)
             && usedInDestroyAddr a))
  else None.

(** The state in which the second part of the loop body, run on [Callee] and
    [ET] with the rewriter [rewrite], leaves the pass. *)
Definition finished
    (rewrite : ExistentialTransform -> gmap string SILFunction ->
               bool * ExistentialTransform * gmap string SILFunction)
    (Callee : SILFunctionPtr) (ET : ExistentialTransform) (st : PassState)
  : PassState :=
  let '(Changed, ET', M') := rewrite ET (Functions st) in
  if Changed : bool
  then mkPassState M' (OptionExistentialSpecializer st)
         (S (NumFunctionsWithExistentialArgsSpecialized st))
         (Worklist st ++ [(getExistentialSpecializedFunction ET', Callee)])
         (Invalidated st ++ [(Callee, InvalidationKind.Everything)])
  else mkPassState M' (OptionExistentialSpecializer st)
         (NumFunctionsWithExistentialArgsSpecialized st)
         (Worklist st) (Invalidated st).



(** Whether the analysis, arrived at index [Idx], asks the call site for an
    operand or a parameter convention it does not have: the type of the
    callee argument qualifies and there is no operand at [Idx], or there is
    one, its concrete type is known, and there is no convention at [Idx]. *)
Definition readsPastCallSite
    (resolve : gmap string SILFunction -> SILValue -> SILInstruction ->
               option CanType)
    (M : gmap string SILFunction) (Apply : FullApplySite)
    (CalleeArgs : list SILFunctionArgument) (Idx : nat) : bool :=
  match CalleeArgs !! Idx with
  | Some a =>
      specializableType (getType a) &&
      match ArgumentOperands (Site Apply) !! Idx with
      | None => true
      | Some v =>
          match resolve M v (getInstruction Apply),
                getOrigCalleeConv Apply !! Idx with
          | Some _, None => true
          | _, _ => false
          end
      end
  | None => false
  end.


(** ** Concrete modules and call sites

    A resolver and a rewriter to run the pass on, and the scenarios the
    properties below are instantiated at. *)
Module Scenario.

(** Values named ["%known"] are known to hold an [S]; nothing else is. *)
Definition resolver (M : gmap string SILFunction) (v : SILValue)
    (user : SILInstruction) : option CanType :=
  if String.eqb v "%known" then Some (mkCanType "S" false) else None.

(** A rewriter that adds a copy of the callee under a new name, and declines
    when a function of that name exists already. *)
Definition rewriter (ET : ExistentialTransform) (M : gmap string SILFunction)
  : bool * ExistentialTransform * gmap string SILFunction :=
  match ET_F ET with
  | Some n =>
      let name := (n ++ "Tf4e_n")%string in
      match M !! n, M !! name with
      | Some F, None =>
          (true,
           mkExistentialTransform (ET_F ET) (ET_Mangler ET)
             (ET_ArgumentDescList ET) (ET_ExistentialArgDescriptor ET)
             (Some name),
           <[name := mkSILFunction name (shouldOptimize F) (Blocks F)
                       (hasIndirectSILResults F) (hasErrorResult F)
                       (getInlineStrategy F) SILLinkage.Shared
                       (getRepresentation F) (isSerialized F)]> M)
      | _, _ => (false, ET, M)
      end
  | None => (false, ET, M)
  end.

Definition P_type (repr : ExistentialRepresentation.t) : SILType :=
  mkSILType (mkCanType "P" false) true false repr.
Definition Any_type : SILType :=
  mkSILType (mkCanType "Any" true) true false ExistentialRepresentation.Opaque.
Definition AnyObject_type : SILType :=
  mkSILType (mkCanType "AnyObject" false) true true
            ExistentialRepresentation.Class.
Definition Int_type : SILType :=
  mkSILType (mkCanType "Int" false) false false
            ExistentialRepresentation.NoRepresentation.

Definition load_use : Operand := mkOperand "%0" (OtherInst "copy_addr" ["%0"]).
Definition destroy_use : Operand := mkOperand "%0" (DestroyAddrInst "%0").

Definition param (c : ParameterConvention.t) : SILParameterInfo :=
  mkSILParameterInfo c.

(** A definition with the given entry-block arguments and default
    attributes. *)
Definition define (name : string) (args : list SILFunctionArgument)
  : SILFunction :=
  mkSILFunction name true [mkSILBasicBlock args [OtherInst "return" []]]
    false false Inline_t.InlineDefault SILLinkage.Hidden
    SILFunctionTypeRepresentation.Thin IsSerialized_t.IsNotSerialized.

Definition state (fs : list SILFunction) : PassState :=
  mkPassState (list_to_map ((fun F => (getName F, F)) <$> fs)) true 0 [] [].

(** An [apply] of the function [callee]. *)
Definition site (callee : string) (args : list SILValue)
    (convs : list ParameterConvention.t) (first : nat) : FullApplySite :=
  mkFullApplySite IsApply
    (mkApplySiteData (Some callee) args (param <$> convs) first).

(** Scenario A: one opaque existential parameter, borrowed, concrete type
    known, no [destroy_addr] of it in the callee. *)
Definition argA : SILFunctionArgument :=
  mkSILFunctionArgument (P_type ExistentialRepresentation.Opaque) [load_use].
Definition calleeA : SILFunction := define "a" [argA].
Definition stateA : PassState := state [calleeA].
Definition applyA : FullApplySite :=
  site "a" ["%known"] [ParameterConvention.Borrowed] 0.
Definition callA : SILInstruction := getInstruction applyA.
Definition transformA : ExistentialTransform :=
  mkExistentialTransform (Some "a")
    (mkMangler "FunctionSignatureOpts" IsSerialized_t.IsNotSerialized
               (Some "a"))
    [mkArgumentDescriptor argA]
    {[0 := mkETAD OpenedExistentialAccess.Immutable false]}
    None.

(** The same call with the first applied argument at callee index 1. *)
Definition applyA_shifted : FullApplySite :=
  site "a" ["%known"] [ParameterConvention.Borrowed] 1.

(** Scenario B: the callee has an indirect result. *)
Definition calleeB : SILFunction :=
  mkSILFunction "b"
    true
    [mkSILBasicBlock
       [mkSILFunctionArgument (P_type ExistentialRepresentation.Opaque) []]
       [OtherInst "return" []]]
    true false Inline_t.InlineDefault SILLinkage.Hidden
    SILFunctionTypeRepresentation.Thin IsSerialized_t.IsNotSerialized.
Definition stateB : PassState := state [calleeB].
Definition applyB : FullApplySite :=
  site "b" ["%known"] [ParameterConvention.Borrowed] 0.
Definition callB : SILInstruction := getInstruction applyB.

(** Scenario C: two existential parameters, the concrete type of the second
    one only is known at the call site; the second is consumed and is
    destroyed in the callee. *)
Definition argC0 : SILFunctionArgument :=
  mkSILFunctionArgument (P_type ExistentialRepresentation.Class) [].
Definition argC1 : SILFunctionArgument :=
  mkSILFunctionArgument (P_type ExistentialRepresentation.Opaque)
                        [load_use; destroy_use; load_use].
Definition calleeC : SILFunction := define "c" [argC0; argC1].
Definition stateC : PassState := state [calleeC].
Definition applyC : FullApplySite :=
  site "c" ["%unknown"; "%known"]
       [ParameterConvention.Borrowed; ParameterConvention.Consumed] 0.
Definition callC : SILInstruction := getInstruction applyC.
Definition descriptorC1 : ExistentialTransformArgumentDescriptor :=
  mkETAD OpenedExistentialAccess.Mutable true.
Definition transformC : ExistentialTransform :=
  mkExistentialTransform (Some "c")
    (mkMangler "FunctionSignatureOpts" IsSerialized_t.IsNotSerialized
               (Some "c"))
    [mkArgumentDescriptor argC0; mkArgumentDescriptor argC1]
    {[1 := descriptorC1]}
    None.

(** Scenario D: the callee is a declaration without a body. *)
Definition calleeD : SILFunction :=
  mkSILFunction "d" true [] false false Inline_t.InlineDefault
    SILLinkage.PublicExternal SILFunctionTypeRepresentation.Thin
    IsSerialized_t.IsNotSerialized.
Definition stateD : PassState := state [calleeD].
Definition applyD : FullApplySite :=
  site "d" ["%known"] [ParameterConvention.Borrowed] 0.
Definition callD : SILInstruction := getInstruction applyD.

(** Scenario A once more, with an operand of unknown concrete type. *)
Definition applyA_unknown : FullApplySite :=
  site "a" ["%unknown"] [ParameterConvention.Borrowed] 0.
Definition callA_unknown : SILInstruction := getInstruction applyA_unknown.

(** Scenario A after the call site has been specialized once. *)
Definition stateA_specialized : PassState :=
  finished rewriter (Some "a") transformA stateA.

(** A caller whose body calls [a], with the function [a] in the module. *)
Definition caller : SILFunction :=
  mkSILFunction "main" true
    [mkSILBasicBlock [] [OtherInst "alloc_stack" []; callA;
                         OtherInst "dealloc_stack" ["%1"]];
     mkSILBasicBlock [] [callA_unknown; OtherInst "return" []]]
    false false Inline_t.InlineDefault SILLinkage.Public
    SILFunctionTypeRepresentation.Thin IsSerialized_t.IsNotSerialized.
Definition stateMain : PassState := state [calleeA; caller].

(** A callee none of whose parameters qualifies: [Any], [AnyObject], a
    type that is not existential, and a boxed existential. *)
Definition calleeE : SILFunction :=
  define "e" [mkSILFunctionArgument Any_type [destroy_use];
              mkSILFunctionArgument AnyObject_type [];
              mkSILFunctionArgument Int_type [];
              mkSILFunctionArgument (P_type ExistentialRepresentation.Boxed)
                                    []].
Definition stateE : PassState := state [calleeE].
Definition applyE : FullApplySite :=
  site "e" ["%known"; "%known"; "%known"; "%known"]
       [ParameterConvention.Consumed; ParameterConvention.Direct;
        ParameterConvention.Direct; ParameterConvention.Direct] 0.

(** An apply of a callee that is not a [function_ref]. *)
Definition applyIndirect : FullApplySite :=
  mkFullApplySite IsApply (mkApplySiteData None ["%known"] [] 0).
Definition callIndirect : SILInstruction := getInstruction applyIndirect.

(** A callee whose second argument only qualifies, called with a single
    operand; and a callee whose first argument only qualifies, called with a
    single operand and a single convention. *)
Definition calleeF : SILFunction :=
  define "f" [mkSILFunctionArgument Int_type []; argA].
Definition calleeG : SILFunction :=
  define "g" [argA; mkSILFunctionArgument Int_type []].
Definition stateFG : PassState := state [calleeF; calleeG].
Definition applyF : FullApplySite :=
  site "f" ["%known"] [ParameterConvention.Direct] 0.
Definition applyG : FullApplySite :=
  site "g" ["%known"] [ParameterConvention.Borrowed] 0.

(** A map that already has entries, at an index of the callee of scenario C
    that does not qualify here and at an index beyond its arguments. *)
Definition staleMap : gmap nat ExistentialTransformArgumentDescriptor :=
  {[0 := mkETAD OpenedExistentialAccess.Immutable true;
    7 := mkETAD OpenedExistentialAccess.Mutable false]}.

Definition staleMapAfter : gmap nat ExistentialTransformArgumentDescriptor :=
  <[1 := descriptorC1]> staleMap.

(** A caller of [b] and [d], whose callees the filter rejects, with a
    [partial_apply] of [a] and a [destroy_addr]. *)
Definition callerBD : SILFunction :=
  mkSILFunction "bd" true
    [mkSILBasicBlock [] [callB; DestroyAddrInst "%2";
                         PartialApplyInst (Site applyA)];
     mkSILBasicBlock [] [callD; callA_unknown; OtherInst "return" []]]
    false false Inline_t.InlineDefault SILLinkage.Public
    SILFunctionTypeRepresentation.Thin IsSerialized_t.IsNotSerialized.
Definition stateBD : PassState := state [calleeA; calleeB; calleeD; callerBD].

(** A caller that should not be optimized, whose call site would fail the
    assertion of the analysis. *)
Definition callerOff : SILFunction :=
  mkSILFunction "off" false
    [mkSILBasicBlock [] [getInstruction applyA_shifted]]
    false false Inline_t.InlineDefault SILLinkage.Public
    SILFunctionTypeRepresentation.Thin IsSerialized_t.IsNotSerialized.
Definition stateOff : PassState := state [calleeA; callerOff].

End Scenario.

(** * Properties *)

Ltac pass_unfold :=
  unfold mbind, Pass_bind, mret, Pass_ret, getState, crash in *.

Lemma forIndices_S {T} (body : nat → T → Pass T) i n s st :
  forIndices body i (S n) s st =
  match body i s st with
  | Done s' st' => forIndices body (S i) n s' st'
  | Crash e => Crash e
  end.
Proof. reflexivity. Qed.

(** ** The callee filter *)

Lemma getReferencedFunction_eq (Apply : FullApplySite) (st : PassState) :
  getReferencedFunction Apply st =
  Done (fst <$> referencedFunction (Functions st) Apply) st.
Proof.
  unfold getReferencedFunction, referencedFunction. pass_unfold.
  destruct (CalleeFunctionRef (Site Apply)) as [n|]; simpl; [|done].
  by destruct (Functions st !! n).
Qed.

Lemma deref_referencedFunction (Apply : FullApplySite) (st : PassState) n F :
  referencedFunction (Functions st) Apply = Some (n, F) →
  deref (Some n) st = Done F st.
Proof.
  unfold referencedFunction, deref. pass_unfold.
  destruct (CalleeFunctionRef (Site Apply)) as [m|]; simpl; [|done].
  destruct (Functions st !! m) as [G|] eqn:E; simpl; [|done].
  intros [= <- <-]. by rewrite E.
Qed.

(** The value of the filter as one boolean expression over the callee. *)
Lemma canSpecializeCalleeFunction_eq (Apply : FullApplySite) (st : PassState) :
  canSpecializeCalleeFunction Apply st =
  Done (match referencedFunction (Functions st) Apply with
        | None => false
        | Some (_, F) =>
            shouldOptimize F && isDefinition F
            && negb (hasIndirectSILResults F) && negb (hasErrorResult F)
            && negb (bool_decide (getInlineStrategy F = Inline_t.AlwaysInline))
            && negb (isAvailableExternally (getLinkage F))
            && negb (bool_decide (getRepresentation F
                                  = SILFunctionTypeRepresentation.ObjCMethod))
            && negb (bool_decide (getRepresentation F
                                  = SILFunctionTypeRepresentation.Block))
        end) st.
Proof.
  unfold canSpecializeCalleeFunction.
  unfold mbind at 1, Pass_bind at 1. rewrite getReferencedFunction_eq.
  destruct (referencedFunction (Functions st) Apply) as [[n F]|] eqn:Href;
    simpl; [|done].
  unfold mbind, Pass_bind. rewrite (deref_referencedFunction _ _ _ _ Href).
  destruct (shouldOptimize F); simpl; [|done].
  destruct (isDefinition F); simpl; [|done].
  destruct (hasIndirectSILResults F); simpl; [done|].
  destruct (hasErrorResult F); simpl; [done|].
  case_bool_decide; simpl; [done|].
  destruct (isAvailableExternally (getLinkage F)); simpl; [done|].
  by destruct (getRepresentation F).
Qed.

(** C1: [canSpecializeCalleeFunction] always returns, leaves the state as it
    was, and returns [false] exactly when the callee is not a directly
    referenced function, or should not be optimized, or is not a definition,
    or has indirect results, or has an error result, or is always inlined, or
    is available externally, or has the representation [ObjCMethod] or
    [Block]; it returns [true] exactly when none of these holds. *)
Theorem canSpecializeCalleeFunction_false_iff
    (Apply : FullApplySite) (st : PassState) :
  ∃ b : bool,
    canSpecializeCalleeFunction Apply st = Done b st ∧
    (b = false ↔
       referencedFunction (Functions st) Apply = None ∨
       ∃ n Callee,
         referencedFunction (Functions st) Apply = Some (n, Callee) ∧
         (shouldOptimize Callee = false ∨
          isDefinition Callee = false ∨
          hasIndirectSILResults Callee = true ∨
          hasErrorResult Callee = true ∨
          getInlineStrategy Callee = Inline_t.AlwaysInline ∨
          isAvailableExternally (getLinkage Callee) = true ∨
          getRepresentation Callee = SILFunctionTypeRepresentation.ObjCMethod ∨
          getRepresentation Callee = SILFunctionTypeRepresentation.Block)) ∧
    (b = true ↔
       ∃ n Callee,
         referencedFunction (Functions st) Apply = Some (n, Callee) ∧
         shouldOptimize Callee = true ∧
         isDefinition Callee = true ∧
         hasIndirectSILResults Callee = false ∧
         hasErrorResult Callee = false ∧
         getInlineStrategy Callee ≠ Inline_t.AlwaysInline ∧
         isAvailableExternally (getLinkage Callee) = false ∧
         getRepresentation Callee ≠ SILFunctionTypeRepresentation.ObjCMethod ∧
         getRepresentation Callee ≠ SILFunctionTypeRepresentation.Block).
Proof.
  eexists. split; [apply canSpecializeCalleeFunction_eq|].
  destruct (referencedFunction (Functions st) Apply) as [[n F]|].
  2: { split; split; try done; [by left|]. by intros (? & ? & ? & _). }
  rewrite !andb_false_iff, !andb_true_iff, !negb_false_iff, !negb_true_iff,
    !bool_decide_eq_true, !bool_decide_eq_false.
  split; split.
  - intros H. right. exists n, F. split; [done|]. tauto.
  - intros [|(? & ? & [= <- <-] & H)]; [done|]. tauto.
  - intros H. exists n, F. split; [done|]. tauto.
  - intros (? & ? & [= <- <-] & H). tauto.
Qed.

(** ** The analysis of the arguments *)

Lemma findIfCalleeUsesArgInDestroyUse_uses_eq Uses ETAD :
  findIfCalleeUsesArgInDestroyUse_uses Uses ETAD =
  if existsb (fun u => isa_DestroyAddrInst (getUser u)) Uses
  then mkETAD (AccessType ETAD) true else ETAD.
Proof.
  induction Uses as [|u Uses IH]; simpl; [done|].
  by destruct (isa_DestroyAddrInst (getUser u)).
Qed.

(** The scan stops at the first [destroy_addr]: the uses behind it do not
    matter. *)
Lemma findIfCalleeUsesArgInDestroyUse_uses_break pre u post post' ETAD :
  isa_DestroyAddrInst (getUser u) = true →
  findIfCalleeUsesArgInDestroyUse_uses (pre ++ u :: post) ETAD =
  findIfCalleeUsesArgInDestroyUse_uses (pre ++ u :: post') ETAD.
Proof.
  intros Hu. induction pre as [|w pre IH]; simpl.
  - by rewrite Hu.
  - by destruct (isa_DestroyAddrInst (getUser w)).
Qed.

Lemma specializableType_true T :
  specializableType T = true ↔
  isExistentialType T = true ∧ isAnyObject T = false ∧
  isAny (getASTType T) = false ∧
  (getPreferredExistentialRepresentation T = ExistentialRepresentation.Opaque
   ∨ getPreferredExistentialRepresentation T
     = ExistentialRepresentation.Class).
Proof.
  unfold specializableType.
  rewrite !andb_true_iff, orb_true_iff, !negb_true_iff, !bool_decide_eq_true.
  tauto.
Qed.

Lemma descriptorAt_Some resolve M Apply CalleeArgs Idx d :
  descriptorAt resolve M Apply CalleeArgs Idx = Some d ↔
  ∃ a v T p,
    CalleeArgs !! Idx = Some a ∧
    specializableType (getType a) = true ∧
    ArgumentOperands (Site Apply) !! Idx = Some v ∧
    resolve M v (getInstruction Apply) = Some T ∧
    getOrigCalleeConv Apply !! Idx = Some p ∧
    d = mkETAD
          (if isIndirectMutating p || isConsumed p
           then OpenedExistentialAccess.Mutable
           else OpenedExistentialAccess.Immutable)
          (bool_decide (getPreferredExistentialRepresentation (getType a)
                        = ExistentialRepresentation.Opaque)
           && usedInDestroyAddr a).
Proof.
  unfold descriptorAt. split.
  - destruct (CalleeArgs !! Idx) as [a|]; simpl; [|done].
    destruct (specializableType (getType a)) eqn:Ht; [|done].
    destruct (ArgumentOperands (Site Apply) !! Idx) as [v|]; simpl; [|done].
    destruct (resolve M v (getInstruction Apply)) as [T|] eqn:HT; simpl;
      [|done].
    destruct (getOrigCalleeConv Apply !! Idx) as [p|]; simpl; [|done].
    intros [= <-]. by exists a, v, T, p.
  - intros (a & v & T & p & Ha & Ht & Hv & HT & Hp & ->).
    rewrite Ha; simpl. rewrite Ht, Hv; simpl. rewrite HT; simpl.
    by rewrite Hp.
Qed.

Lemma usedInDestroyAddr_true a :
  usedInDestroyAddr a = true ↔
  ∃ ArgUse, ArgUse ∈ getUses a ∧ isa_DestroyAddrInst (getUser ArgUse) = true.
Proof.
  unfold usedInDestroyAddr. rewrite existsb_exists.
  by setoid_rewrite list_elem_of_In.
Qed.

Section Analyzer.

Variable ConcreteExistentialInfo :
  gmap string SILFunction -> SILValue -> SILInstruction -> option CanType.

Local Abbreviation descriptor := (descriptorAt ConcreteExistentialInfo).

Lemma canSpecializeExistentialArg_done Apply CalleeArgs Idx flag m st r st' :
  canSpecializeExistentialArg ConcreteExistentialInfo Apply CalleeArgs
    (getOrigCalleeConv Apply) Idx (flag, m) st = Done r st' →
  st' = st ∧
  r = match descriptor (Functions st) Apply CalleeArgs Idx with
      | Some d => (true, <[Idx := d]> m)
      | None => (flag, m)
      end.
Proof.
  unfold canSpecializeExistentialArg, descriptorAt, specializableType, index,
    getArgumentRef, getParamInfoForSILArg, findIfCalleeUsesArgInDestroyUse,
    usedInDestroyAddr.
  pass_unfold.
  destruct (CalleeArgs !! Idx) as [a|]; simpl; [|done].
  destruct (isExistentialType (getType a)); simpl;
    [|by intros [= <- <-]].
  destruct (isAnyObject (getType a)); simpl; [by intros [= <- <-]|].
  destruct (isAny (getASTType (getType a))); simpl; [by intros [= <- <-]|].
  destruct (getPreferredExistentialRepresentation (getType a)) eqn:Hrepr;
    simpl; try (by intros [= <- <-]).
  all: destruct (ArgumentOperands (Site Apply) !! Idx) as [v|]; simpl;
    [|done].
  all: destruct (ConcreteExistentialInfo (Functions st) v
                   (getInstruction Apply)); simpl; [|by intros [= <- <-]].
  all: destruct (getOrigCalleeConv Apply !! Idx) as [p|]; simpl; [|done].
  all: rewrite ?findIfCalleeUsesArgInDestroyUse_uses_eq; simpl.
  all: rewrite orb_true_r.
  - intros [= <- <-]. split; [done|].
    by destruct (existsb _ (getUses a)).
  - by intros [= <- <-].
Qed.

Lemma forIndices_canSpecializeExistentialArg Apply CalleeArgs n :
  ∀ i flag m st flag' m' st',
    forIndices
      (canSpecializeExistentialArg ConcreteExistentialInfo Apply CalleeArgs
         (getOrigCalleeConv Apply)) i n (flag, m) st = Done (flag', m') st' →
    st' = st ∧
    (∀ Idx,
       m' !! Idx =
       if decide (i ≤ Idx < i + n)
       then from_option Some (m !! Idx)
                        (descriptor (Functions st) Apply CalleeArgs Idx)
       else m !! Idx) ∧
    (flag' = true ↔
     flag = true ∨
     ∃ Idx, i ≤ Idx < i + n ∧
            is_Some (descriptor (Functions st) Apply CalleeArgs Idx)).
Proof.
  induction n as [|n IH]; intros i flag m st flag' m' st' H.
  - injection H as -> -> ->. split; [done|]. split.
    + intros Idx. case_decide; [lia|done].
    + split; [by left|]. intros [|(Idx & ? & _)]; [done|lia].
  - rewrite forIndices_S in H.
    destruct (canSpecializeExistentialArg ConcreteExistentialInfo Apply
                CalleeArgs (getOrigCalleeConv Apply) i (flag, m) st)
      as [[f1 m1] st1|] eqn:E; [|done].
    apply canSpecializeExistentialArg_done in E as [-> Hr].
    apply IH in H as (-> & Hm & Hf). split; [done|]. split.
    + intros Idx. rewrite Hm. clear Hm Hf.
      destruct (decide (Idx = i)) as [->|Hne].
      * rewrite decide_False by lia. rewrite decide_True by lia.
        destruct (descriptor _ _ _ i); injection Hr as -> ->; simpl;
          [by rewrite lookup_insert_eq|done].
      * destruct (decide (S i ≤ Idx < S i + n)).
        -- rewrite decide_True by lia.
           destruct (descriptor _ _ _ Idx); simpl; [done|].
           destruct (descriptor _ _ _ i); injection Hr as -> ->;
             [by rewrite lookup_insert_ne|done].
        -- rewrite decide_False by lia.
           destruct (descriptor _ _ _ i); injection Hr as -> ->;
             [by rewrite lookup_insert_ne|done].
    + rewrite Hf. clear Hm Hf. split.
      * intros [Hf1|(Idx & ? & ?)].
        -- destruct (descriptor _ _ _ i) eqn:Hd; injection Hr as -> ->.
           ++ right. exists i. split; [lia|]. by rewrite Hd.
           ++ by left.
        -- right. exists Idx. split; [lia|done].
      * intros [->|(Idx & Hr' & Hs)].
        -- left. by destruct (descriptor _ _ _ i); injection Hr as -> ->.
        -- destruct (decide (Idx = i)) as [->|Hne].
           ++ left. destruct Hs as [d Hd]. rewrite Hd in Hr.
              by injection Hr as -> ->.
           ++ right. exists Idx. split; [lia|done].
Qed.

Lemma calleeArguments_Some M Apply CalleeArgs :
  calleeArguments M Apply = Some CalleeArgs ↔
  ∃ n F B Bs, referencedFunction M Apply = Some (n, F) ∧
              Blocks F = B :: Bs ∧ getFunctionArguments B = CalleeArgs.
Proof.
  unfold calleeArguments.
  destruct (referencedFunction M Apply) as [[n F]|]; simpl.
  2: { split; [done|]. by intros (? & ? & ? & ? & ? & _). }
  destruct (Blocks F) as [|B Bs] eqn:HB; simpl.
  - split; [done|]. intros (? & ? & ? & ? & [= <- <-] & ? & _). congruence.
  - split.
    + intros [= <-]. by exists n, F, B, Bs.
    + intros (? & ? & ? & ? & [= <- <-] & HB' & <-). congruence.
Qed.

(** What a run of the analysis that returns has done: the callee has an
    entry block, the assertion held, the state is as before, the map has
    gained exactly the descriptors of the eligible indices, and the flag tells
    whether there was one. *)
Lemma canSpecializeExistentialArgsInFunction_done Apply EAD0 st flag EAD st' :
  canSpecializeExistentialArgsInFunction ConcreteExistentialInfo Apply EAD0 st
  = Done (flag, EAD) st' →
  ∃ CalleeArgs,
    calleeArguments (Functions st) Apply = Some CalleeArgs ∧
    getCalleeArgIndexOfFirstAppliedArg Apply = 0 ∧
    st' = st ∧
    (∀ Idx,
       EAD !! Idx =
       from_option Some (EAD0 !! Idx)
                   (descriptor (Functions st) Apply CalleeArgs Idx)) ∧
    (flag = true ↔
     ∃ Idx, is_Some (descriptor (Functions st) Apply CalleeArgs Idx)).
Proof.
  unfold canSpecializeExistentialArgsInFunction.
  unfold mbind at 1, Pass_bind at 1. rewrite getReferencedFunction_eq.
  destruct (referencedFunction (Functions st) Apply) as [[n F]|] eqn:Href;
    simpl; [|done].
  unfold mbind at 1, Pass_bind at 1.
  rewrite (deref_referencedFunction _ _ _ _ Href).
  unfold mbind at 1, Pass_bind at 1, begin.
  destruct (Blocks F) as [|B Bs] eqn:HB; [done|]. simpl.
  unfold mbind at 1, Pass_bind at 1, Assert.
  case_bool_decide as H0; [|done]. simpl.
  intros H. apply forIndices_canSpecializeExistentialArg in H
    as (-> & Hm & Hf).
  exists (getFunctionArguments B). split.
  { apply calleeArguments_Some. by exists n, F, B, Bs. }
  do 2 (split; [done|]). split.
  - intros Idx. rewrite Hm. case_decide as Hr; [done|].
    unfold descriptorAt.
    by rewrite (lookup_ge_None_2 (getFunctionArguments B)) by lia.
  - rewrite Hf. split.
    + intros [|(Idx & _ & ?)]; [done|]. by exists Idx.
    + intros [Idx Hs]. right. exists Idx. split; [|done].
      destruct Hs as [d Hd]. unfold descriptorAt in Hd.
      destruct (getFunctionArguments B !! Idx) eqn:E; [|done].
      apply lookup_lt_Some in E. lia.
Qed.

(** The analysis up to its loop: the two dereferences and the assertion. *)
Lemma canSpecializeExistentialArgsInFunction_unfold Apply EAD0 st :
  canSpecializeExistentialArgsInFunction ConcreteExistentialInfo Apply EAD0 st
  = match calleeArguments (Functions st) Apply with
    | None => Crash InvalidDereference
    | Some CalleeArgs =>
        if bool_decide (getCalleeArgIndexOfFirstAppliedArg Apply = 0)
        then forIndices
               (canSpecializeExistentialArg ConcreteExistentialInfo Apply
                  CalleeArgs (getOrigCalleeConv Apply))
               0 (length CalleeArgs) (false, EAD0) st
        else Crash AssertionFailure
    end.
Proof.
  unfold canSpecializeExistentialArgsInFunction, calleeArguments.
  unfold mbind at 1, Pass_bind at 1. rewrite getReferencedFunction_eq.
  destruct (referencedFunction (Functions st) Apply) as [[n F]|] eqn:Href;
    simpl; [|done].
  unfold mbind at 1, Pass_bind at 1.
  rewrite (deref_referencedFunction _ _ _ _ Href).
  unfold mbind at 1, Pass_bind at 1, begin.
  destruct (Blocks F) as [|B Bs] eqn:HB; [done|]. simpl.
  unfold mbind at 1, Pass_bind at 1, Assert.
  by case_bool_decide.
Qed.

(** A descriptor found in the map after the run that was not there before
    is the one the run computed for its index. *)
Lemma canSpecializeExistentialArgsInFunction_inserted
    Apply EAD0 st flag EAD st' Idx d :
  canSpecializeExistentialArgsInFunction ConcreteExistentialInfo Apply EAD0 st
  = Done (flag, EAD) st' →
  EAD !! Idx = Some d →
  EAD0 !! Idx ≠ Some d →
  ∃ CalleeArgs,
    calleeArguments (Functions st) Apply = Some CalleeArgs ∧
    descriptor (Functions st) Apply CalleeArgs Idx = Some d.
Proof.
  intros H Hd Hnew.
  apply canSpecializeExistentialArgsInFunction_done in H
    as (CalleeArgs & Hargs & _ & _ & Hm & _).
  exists CalleeArgs. split; [done|].
  rewrite Hm in Hd.
  destruct (descriptor (Functions st) Apply CalleeArgs Idx); simpl in Hd;
    [done|]. by destruct Hnew.
Qed.

(** C2: a descriptor the analysis has put into the map has [AccessType]
    [Mutable] exactly when the parameter convention of the callee at its
    index is indirect-mutating or consumed, and [Immutable] exactly when it
    is neither; there is no third value. *)
Theorem AccessType_Mutable_iff Apply EAD0 st flag EAD st' Idx d :
  canSpecializeExistentialArgsInFunction ConcreteExistentialInfo Apply EAD0 st
  = Done (flag, EAD) st' →
  EAD !! Idx = Some d →
  EAD0 !! Idx ≠ Some d →
  ∃ paramInfo,
    getOrigCalleeConv Apply !! Idx = Some paramInfo ∧
    (AccessType d = OpenedExistentialAccess.Mutable ↔
     getConvention paramInfo = ParameterConvention.IndirectMutating ∨
     getConvention paramInfo = ParameterConvention.Consumed) ∧
    (AccessType d = OpenedExistentialAccess.Immutable ↔
     getConvention paramInfo ≠ ParameterConvention.IndirectMutating ∧
     getConvention paramInfo ≠ ParameterConvention.Consumed) ∧
    (AccessType d = OpenedExistentialAccess.Mutable ∨
     AccessType d = OpenedExistentialAccess.Immutable).
Proof.
  intros H Hd Hnew.
  destruct (canSpecializeExistentialArgsInFunction_inserted _ _ _ _ _ _ _ _
              H Hd Hnew) as (CalleeArgs & _ & Hdesc).
  apply descriptorAt_Some in Hdesc as (a & v & T & p & _ & _ & _ & _ & Hp & ->).
  exists p. split; [done|]. simpl.
  unfold isIndirectMutating, isConsumed.
  destruct (getConvention p); simpl; intuition congruence.
Qed.

(** C3: for a descriptor the analysis has put into the map, [DestroyAddrUse]
    is [false] when the callee argument is represented as [Class]; when it is
    represented as [Opaque], the flag is [true] exactly when some use of the
    callee argument is a [destroy_addr].  The use list is scanned for
    [Opaque] only, and the scan stops at the first [destroy_addr]: what
    follows it in the use list does not change the result. *)
Theorem DestroyAddrUse_iff Apply EAD0 st flag EAD st' Idx d :
  canSpecializeExistentialArgsInFunction ConcreteExistentialInfo Apply EAD0 st
  = Done (flag, EAD) st' →
  EAD !! Idx = Some d →
  EAD0 !! Idx ≠ Some d →
  ∃ CalleeArgs CalleeArg,
    calleeArguments (Functions st) Apply = Some CalleeArgs ∧
    CalleeArgs !! Idx = Some CalleeArg ∧
    (getPreferredExistentialRepresentation (getType CalleeArg)
     = ExistentialRepresentation.Class →
     DestroyAddrUse d = false) ∧
    (getPreferredExistentialRepresentation (getType CalleeArg)
     = ExistentialRepresentation.Opaque →
     (DestroyAddrUse d = true ↔
      ∃ ArgUse, ArgUse ∈ getUses CalleeArg ∧
                isa_DestroyAddrInst (getUser ArgUse) = true)) ∧
    DestroyAddrUse d =
      (if decide (getPreferredExistentialRepresentation (getType CalleeArg)
                  = ExistentialRepresentation.Opaque)
       then DestroyAddrUse
              (findIfCalleeUsesArgInDestroyUse CalleeArg
                 (mkETAD (AccessType d) false))
       else false) ∧
    (∀ pre ArgUse post ETAD,
       getUses CalleeArg = pre ++ ArgUse :: post →
       isa_DestroyAddrInst (getUser ArgUse) = true →
       findIfCalleeUsesArgInDestroyUse CalleeArg ETAD =
       findIfCalleeUsesArgInDestroyUse_uses (pre ++ [ArgUse]) ETAD).
Proof.
  intros H Hd Hnew.
  destruct (canSpecializeExistentialArgsInFunction_inserted _ _ _ _ _ _ _ _
              H Hd Hnew) as (CalleeArgs & Hargs & Hdesc).
  apply descriptorAt_Some in Hdesc
    as (a & v & T & p & Ha & Ht & _ & _ & _ & ->).
  exists CalleeArgs, a. do 2 (split; [done|]). simpl.
  split; [|split; [|split]].
  - intros ->. done.
  - intros ->. rewrite bool_decide_eq_true_2 by done. simpl.
    apply usedInDestroyAddr_true.
  - unfold findIfCalleeUsesArgInDestroyUse.
    rewrite findIfCalleeUsesArgInDestroyUse_uses_eq.
    case_decide as Hr.
    + rewrite bool_decide_eq_true_2 by done. simpl. unfold usedInDestroyAddr.
      by destruct (existsb _ _).
    + by rewrite bool_decide_eq_false_2.
  - intros pre u post ETAD Huses Hu. unfold findIfCalleeUsesArgInDestroyUse.
    rewrite Huses.
    by apply findIfCalleeUsesArgInDestroyUse_uses_break.
Qed.

(** C4: a key the analysis has put into the map is the index of a callee
    argument whose type is existential, is neither [Any] nor [AnyObject], is
    represented as [Opaque] or [Class], and for whose operand at the call
    site the resolver has found a concrete type. *)
Theorem ExistentialArgDescriptor_keys Apply EAD0 st flag EAD st' Idx d :
  canSpecializeExistentialArgsInFunction ConcreteExistentialInfo Apply EAD0 st
  = Done (flag, EAD) st' →
  EAD !! Idx = Some d →
  EAD0 !! Idx ≠ Some d →
  ∃ CalleeArgs CalleeArg ArgOper ConcreteType,
    calleeArguments (Functions st) Apply = Some CalleeArgs ∧
    CalleeArgs !! Idx = Some CalleeArg ∧
    isExistentialType (getType CalleeArg) = true ∧
    isAny (getASTType (getType CalleeArg)) = false ∧
    isAnyObject (getType CalleeArg) = false ∧
    (getPreferredExistentialRepresentation (getType CalleeArg)
     = ExistentialRepresentation.Opaque ∨
     getPreferredExistentialRepresentation (getType CalleeArg)
     = ExistentialRepresentation.Class) ∧
    ArgumentOperands (Site Apply) !! Idx = Some ArgOper ∧
    ConcreteExistentialInfo (Functions st) ArgOper (getInstruction Apply)
    = Some ConcreteType.
Proof.
  intros H Hd Hnew.
  destruct (canSpecializeExistentialArgsInFunction_inserted _ _ _ _ _ _ _ _
              H Hd Hnew) as (CalleeArgs & Hargs & Hdesc).
  apply descriptorAt_Some in Hdesc
    as (a & v & T & p & Ha & Ht & Hv & HT & _ & _).
  apply specializableType_true in Ht as (? & ? & ? & ?).
  by exists CalleeArgs, a, v, T.
Qed.

(** C8: a run of the analysis that returns leaves the state of the pass,
    and with it the module, the callee and the apply instruction, as it
    was; what it gives back is the map and the flag.  When the flag is
    [false] the map is the one passed in, when it is [true] the map has an
    entry, and on a map passed in empty the flag is [true] exactly when the
    map comes back non-empty. *)
Theorem canSpecializeExistentialArgsInFunction_pure Apply EAD0 st flag EAD st' :
  canSpecializeExistentialArgsInFunction ConcreteExistentialInfo Apply EAD0 st
  = Done (flag, EAD) st' →
  st' = st ∧
  (flag = false → EAD = EAD0) ∧
  (flag = true → ∃ Idx d, EAD !! Idx = Some d) ∧
  (EAD0 = ∅ → (flag = true ↔ EAD ≠ ∅)).
Proof.
  intros H.
  apply canSpecializeExistentialArgsInFunction_done in H
    as (CalleeArgs & _ & _ & -> & Hm & Hf).
  split; [done|].
  assert (Hfalse : flag = false → EAD = EAD0).
  { intros ->. apply map_eq. intros Idx. rewrite Hm.
    destruct (descriptor (Functions st) Apply CalleeArgs Idx) eqn:Hd;
      simpl; [|done].
    assert (false = true); [|done]. apply Hf. exists Idx. by rewrite Hd. }
  assert (Htrue : flag = true → ∃ Idx d, EAD !! Idx = Some d).
  { intros Ht. apply Hf in Ht as (Idx & d & Hd). exists Idx, d.
    by rewrite Hm, Hd. }
  do 2 (split; [done|]).
  intros ->. split.
  - intros Ht. apply Htrue in Ht as (Idx & d & Hd). intros ->.
    by rewrite lookup_empty in Hd.
  - intros Hne. destruct flag; [done|]. by destruct Hne; apply Hfalse.
Qed.

End Analyzer.

(** ** The loop over the call sites *)

Lemma buildArgumentDescList_eq Args st :
  buildArgumentDescList Args st = Done (mkArgumentDescriptor <$> Args) st.
Proof.
  unfold buildArgumentDescList.
  set (body := fun (i : nat) (ArgumentDescList : list ArgumentDescriptor) =>
                 a ← index Args i;
                 mret (ArgumentDescList ++ [mkArgumentDescriptor a])).
  enough (∀ rest pre acc,
            Args = pre ++ rest →
            forIndices body (length pre) (length rest) acc st
            = Done (acc ++ (mkArgumentDescriptor <$> rest)) st) as H.
  { apply (H Args [] []). done. }
  induction rest as [|a rest IH]; intros pre acc HArgs.
  - simpl. by rewrite app_nil_r.
  - cbn [length]. rewrite forIndices_S.
    assert (body (length pre) acc st
            = Done (acc ++ [mkArgumentDescriptor a]) st) as ->.
    { unfold body, index, mbind, Pass_bind. rewrite HArgs.
      rewrite lookup_app_r by lia. by rewrite Nat.sub_diag. }
    specialize (IH (pre ++ [a]) (acc ++ [mkArgumentDescriptor a])).
    rewrite length_app, Nat.add_1_r in IH. rewrite IH.
    + by rewrite <- app_assoc.
    + by rewrite <- app_assoc.
Qed.

(** A callee the filter lets through is a function of the module with an
    entry block. *)
Lemma canSpecializeCalleeFunction_true Apply st :
  canSpecializeCalleeFunction Apply st = Done true st →
  ∃ n F CalleeArgs,
    referencedFunction (Functions st) Apply = Some (n, F) ∧
    calleeArguments (Functions st) Apply = Some CalleeArgs.
Proof.
  rewrite canSpecializeCalleeFunction_eq. intros [= H].
  destruct (referencedFunction (Functions st) Apply) as [[n F]|] eqn:Href;
    [|done].
  rewrite !andb_true_iff in H. destruct H as [[[[[[[_ Hdef] _] _] _] _] _] _].
  unfold isDefinition in Hdef.
  destruct (Blocks F) as [|B Bs] eqn:HB; [done|].
  exists n, F, (getFunctionArguments B). split; [done|].
  apply calleeArguments_Some. by exists n, F, B, Bs.
Qed.

Section Orchestrator.

Variable ConcreteExistentialInfo :
  gmap string SILFunction -> SILValue -> SILInstruction -> option CanType.
Variable ExistentialTransform_run :
  ExistentialTransform -> gmap string SILFunction ->
  bool * ExistentialTransform * gmap string SILFunction.

Local Abbreviation analyze :=
  (canSpecializeExistentialArgsInFunction ConcreteExistentialInfo).
Local Abbreviation prepare :=
  (prepareExistentialTransform ConcreteExistentialInfo).
Local Abbreviation finish :=
  (finishExistentialTransform ExistentialTransform_run).
Local Abbreviation visit :=
  (specializeExistentialArgsInApply ConcreteExistentialInfo
     ExistentialTransform_run).

(** The first part of the loop body, step by step. *)
Lemma prepareExistentialTransform_unfold I st :
  prepare I st =
  match FullApplySite_isa I with
  | None => Done None st
  | Some Apply =>
      match canSpecializeCalleeFunction Apply st with
      | Done false _ => Done None st
      | Done true _ =>
          match analyze Apply ∅ st with
          | Done (false, _) _ => Done None st
          | Done (true, EAD) _ =>
              match referencedFunction (Functions st) Apply,
                    calleeArguments (Functions st) Apply with
              | Some (n, F), Some CalleeArgs =>
                  Done (Some (Some n,
                              mkExistentialTransform (Some n)
                                (mkMangler "FunctionSignatureOpts"
                                           (isSerialized F) (Some n))
                                (mkArgumentDescriptor <$> CalleeArgs)
                                EAD None)) st
              | _, _ => Crash InvalidDereference
              end
          | Crash f => Crash f
          end
      | Crash f => Crash f
      end
  end.
Proof.
  unfold prepareExistentialTransform.
  destruct (FullApplySite_isa I) as [Apply|]; [|done].
  unfold mbind at 1, Pass_bind at 1.
  destruct (canSpecializeCalleeFunction Apply st) as [b st1|f] eqn:Hf; [|done].
  assert (st1 = st) as ->.
  { rewrite canSpecializeCalleeFunction_eq in Hf. by injection Hf. }
  destruct b; simpl; [|done].
  apply canSpecializeCalleeFunction_true in Hf
    as (n & F & CalleeArgs & Href & Hargs).
  unfold mbind at 1, Pass_bind at 1. rewrite getReferencedFunction_eq, Href.
  simpl. unfold mbind at 1, Pass_bind at 1.
  destruct (analyze Apply ∅ st) as [[flag EAD] st1|f] eqn:Han; [|done].
  apply canSpecializeExistentialArgsInFunction_done in Han
    as (CalleeArgs' & Hargs' & _ & -> & _).
  rewrite Hargs. destruct flag; simpl; [|done].
  unfold mbind at 1, Pass_bind at 1.
  rewrite (deref_referencedFunction _ _ _ _ Href).
  apply calleeArguments_Some in Hargs
    as (n' & F' & B & Bs & Href' & HB & <-).
  rewrite Href in Href'. injection Href' as <- <-.
  unfold mbind at 1, Pass_bind at 1, begin. rewrite HB. simpl.
  unfold mbind at 1, Pass_bind at 1. by rewrite buildArgumentDescList_eq.
Qed.

Lemma prepareExistentialTransform_frame I st r st' :
  prepare I st = Done r st' → st' = st.
Proof.
  rewrite prepareExistentialTransform_unfold.
  destruct (FullApplySite_isa I) as [Apply|]; [|by intros [= _ ->]].
  destruct (canSpecializeCalleeFunction Apply st) as [[] ?|]; [| |done].
  2: by intros [= _ ->].
  destruct (analyze Apply ∅ st) as [[[] ?] ?|]; [| |done].
  2: by intros [= _ ->].
  destruct (referencedFunction _ _) as [[? ?]|]; [|done].
  destruct (calleeArguments _ _); [|done]. by intros [= _ ->].
Qed.

Lemma finishExistentialTransform_eq Callee ET st :
  finish Callee ET st = Done tt (finished ExistentialTransform_run Callee ET st).
Proof.
  unfold finishExistentialTransform, finished, runExistentialTransform.
  unfold mbind, Pass_bind.
  destruct (ExistentialTransform_run ET (Functions st)) as [[[] ET'] M'];
    done.
Qed.

Lemma specializeExistentialArgsInApply_unfold I st :
  visit I st =
  match prepare I st with
  | Done None _ => Done tt st
  | Done (Some (Callee, ET)) _ =>
      Done tt (finished ExistentialTransform_run Callee ET st)
  | Crash f => Crash f
  end.
Proof.
  unfold specializeExistentialArgsInApply. unfold mbind, Pass_bind.
  destruct (prepare I st) as [r st1|f] eqn:Hp; [|done].
  apply prepareExistentialTransform_frame in Hp as ->.
  destruct r as [[Callee ET]|]; [|done].
  apply finishExistentialTransform_eq.
Qed.

(** C5: when the filter rejects the callee, or the analysis finds no
    eligible argument, or the rewriter reports that it changed nothing (and,
    as its interface promises, then left the module alone), the loop body
    leaves the whole state of the pass as it was: module, counter, worklist
    and invalidations.  A call site is left untouched or is rewritten in
    full, with all of the bookkeeping. *)
Theorem rejected_call_site_unchanged I Apply st :
  (∀ ET M, (ExistentialTransform_run ET M).1.1 = false →
           (ExistentialTransform_run ET M).2 = M) →
  FullApplySite_isa I = Some Apply →
  (canSpecializeCalleeFunction Apply st = Done false st →
   visit I st = Done tt st) ∧
  (∀ EAD, canSpecializeCalleeFunction Apply st = Done true st →
          analyze Apply ∅ st = Done (false, EAD) st →
          visit I st = Done tt st) ∧
  (∀ Callee ET, prepare I st = Done (Some (Callee, ET)) st →
                (ExistentialTransform_run ET (Functions st)).1.1 = false →
                visit I st = Done tt st) ∧
  (∀ st', visit I st = Done tt st' →
          st' = st ∨
          ∃ Callee ET,
            prepare I st = Done (Some (Callee, ET)) st ∧
            (ExistentialTransform_run ET (Functions st)).1.1 = true ∧
            st' = finished ExistentialTransform_run Callee ET st).
Proof.
  intros Hcontract HI.
  assert (Hdeclined : ∀ Callee ET,
            (ExistentialTransform_run ET (Functions st)).1.1 = false →
            finished ExistentialTransform_run Callee ET st = st).
  { intros Callee ET Hfalse. unfold finished.
    specialize (Hcontract ET (Functions st) Hfalse).
    destruct (ExistentialTransform_run ET (Functions st)) as [[Changed ET'] M'].
    simpl in *. subst. by destruct st. }
  split; [|split; [|split]].
  - intros Hf. rewrite specializeExistentialArgsInApply_unfold,
      prepareExistentialTransform_unfold, HI, Hf. done.
  - intros EAD Hf Han. rewrite specializeExistentialArgsInApply_unfold,
      prepareExistentialTransform_unfold, HI, Hf, Han. done.
  - intros Callee ET Hp Hfalse.
    rewrite specializeExistentialArgsInApply_unfold, Hp.
    by rewrite Hdeclined.
  - intros st'. rewrite specializeExistentialArgsInApply_unfold.
    destruct (prepare I st) as [[[Callee ET]|] st1|] eqn:Hp; [| |done].
    + pose proof (prepareExistentialTransform_frame _ _ _ _ Hp) as ->.
      intros [= <-].
      destruct ((ExistentialTransform_run ET (Functions st)).1.1) eqn:Hc.
      * right. by exists Callee, ET.
      * left. by apply Hdeclined.
    + intros [= <-]. by left.
Qed.

(** C6: when the checks of the loop body return, the body returns too, and
    it has added one to the counter, put the specialized function on the
    worklist once and invalidated everything for the callee exactly when a
    transform was built and its run reported a change; otherwise counter,
    worklist and invalidations are as before. *)
Theorem bookkeeping_iff_rewrite_succeeded I st prepared st1 :
  prepare I st = Done prepared st1 →
  ∃ st',
    visit I st = Done tt st' ∧
    match prepared with
    | Some (Callee, ET) =>
        let '(Changed, ET', M') :=
          ExistentialTransform_run ET (Functions st) in
        Functions st' = M' ∧
        if Changed : bool then
          NumFunctionsWithExistentialArgsSpecialized st'
          = NumFunctionsWithExistentialArgsSpecialized st + 1 ∧
          Worklist st'
          = Worklist st ++ [(getExistentialSpecializedFunction ET', Callee)] ∧
          Invalidated st'
          = Invalidated st ++ [(Callee, InvalidationKind.Everything)]
        else
          NumFunctionsWithExistentialArgsSpecialized st'
          = NumFunctionsWithExistentialArgsSpecialized st ∧
          Worklist st' = Worklist st ∧
          Invalidated st' = Invalidated st
    | None => st' = st
    end.
Proof.
  intros Hp. rewrite specializeExistentialArgsInApply_unfold, Hp.
  destruct prepared as [[Callee ET]|]; [|by exists st].
  eexists. split; [done|]. unfold finished.
  destruct (ExistentialTransform_run ET (Functions st)) as [[[] ET'] M'];
    simpl; repeat split; try done. lia.
Qed.

Lemma gmap_size_le_bound {A} (m : gmap nat A) (n : nat) :
  (∀ i, is_Some (m !! i) → i < n) → size m ≤ n.
Proof.
  intros H. rewrite <- size_dom.
  rewrite <- (size_set_seq (C := gset nat) 0 n).
  apply subseteq_size. intros i Hi. apply elem_of_dom in Hi.
  apply elem_of_set_seq. specialize (H i Hi). lia.
Qed.

(** C7: whenever a transform is built, so that the rewrite is attempted, its
    positional descriptor list has one entry for every function argument of
    the entry block of the callee, in the order of the arguments, whatever
    the eligible-argument map contains; the keys of that map are positions of
    the list, so the map has at most as many entries as the list. *)
Theorem ArgumentDescList_covers_all_arguments I st Callee ET st1 :
  prepare I st = Done (Some (Callee, ET)) st1 →
  ∃ Apply CalleeArgs,
    FullApplySite_isa I = Some Apply ∧
    calleeArguments (Functions st) Apply = Some CalleeArgs ∧
    visit I st = finish Callee ET st ∧
    Arg <$> ET_ArgumentDescList ET = CalleeArgs ∧
    length (ET_ArgumentDescList ET) = length CalleeArgs ∧
    (∀ i a, CalleeArgs !! i = Some a →
            ET_ArgumentDescList ET !! i = Some (mkArgumentDescriptor a)) ∧
    (∀ Idx, is_Some (ET_ExistentialArgDescriptor ET !! Idx) →
            Idx < length (ET_ArgumentDescList ET)) ∧
    size (ET_ExistentialArgDescriptor ET) ≤ length (ET_ArgumentDescList ET).
Proof.
  intros Hp.
  assert (Hv : visit I st = finish Callee ET st).
  { pose proof (prepareExistentialTransform_frame _ _ _ _ Hp) as ->.
    rewrite specializeExistentialArgsInApply_unfold, Hp.
    by rewrite finishExistentialTransform_eq. }
  rewrite prepareExistentialTransform_unfold in Hp.
  destruct (FullApplySite_isa I) as [Apply|]; [|done].
  destruct (canSpecializeCalleeFunction Apply st) as [[] ?|]; [|done..].
  destruct (analyze Apply ∅ st) as [[[] EAD] ?|] eqn:Han; [|done..].
  destruct (referencedFunction _ _) as [[n F]|]; [|done].
  destruct (calleeArguments _ _) as [CalleeArgs|] eqn:Hargs; [|done].
  injection Hp as <- <- <-. simpl.
  exists Apply, CalleeArgs. do 3 (split; [done|]).
  assert (Hkeys : ∀ Idx, is_Some (EAD !! Idx) →
                         Idx < length (mkArgumentDescriptor <$> CalleeArgs)).
  { intros Idx [d Hd].
    destruct (canSpecializeExistentialArgsInFunction_inserted _ _ _ _ _ _ _
                Idx d Han Hd) as (CalleeArgs' & Hargs' & Hdesc).
    { by rewrite lookup_empty. }
    rewrite Hargs in Hargs'. injection Hargs' as <-.
    apply descriptorAt_Some in Hdesc as (a & _ & _ & _ & Ha & _).
    rewrite length_fmap. by apply lookup_lt_Some in Ha. }
  split; [|split; [|split; [|split]]].
  - rewrite <- list_fmap_compose. apply list_fmap_id.
  - apply length_fmap.
  - intros i a Ha. by rewrite list_lookup_fmap, Ha.
  - done.
  - by apply gmap_size_le_bound.
Qed.

(** C10: the loop body never dereferences a null function or an entry block
    that is not there.  For a call site the filter lets through, the
    referenced function is not null and has an entry block, so neither
    dereference of the analysis faults; for a call site without a referenced
    function the filter returns [false] and the body leaves the state alone,
    although the analysis, run on its own, would dereference null. *)
Theorem analyzer_dereferences_are_safe I st :
  visit I st ≠ Crash InvalidDereference ∧
  ∀ Apply,
    FullApplySite_isa I = Some Apply →
    (canSpecializeCalleeFunction Apply st = Done true st →
     ∃ n F Entry,
       getReferencedFunction Apply st = Done (Some n) st ∧
       deref (Some n) st = Done F st ∧
       begin F st = Done Entry st ∧
       ∀ EAD0, analyze Apply EAD0 st ≠ Crash InvalidDereference) ∧
    (getReferencedFunction Apply st = Done None st →
     canSpecializeCalleeFunction Apply st = Done false st ∧
     visit I st = Done tt st ∧
     ∀ EAD0, analyze Apply EAD0 st = Crash InvalidDereference).
Proof.
  assert (Hsafe : ∀ Apply,
            canSpecializeCalleeFunction Apply st = Done true st →
            ∃ n F Entry,
              getReferencedFunction Apply st = Done (Some n) st ∧
              deref (Some n) st = Done F st ∧
              begin F st = Done Entry st ∧
              ∀ EAD0, analyze Apply EAD0 st ≠ Crash InvalidDereference).
  { intros Apply Hf.
    destruct (canSpecializeCalleeFunction_true _ _ Hf)
      as (n & F & CalleeArgs & Href & Hargs).
    pose proof Hargs as Hargs'.
    apply calleeArguments_Some in Hargs'
      as (n' & F' & B & Bs & Href' & HB & _).
    rewrite Href in Href'. injection Href' as <- <-.
    exists n, F, B. split; [|split; [|split]].
    - by rewrite getReferencedFunction_eq, Href.
    - by apply (deref_referencedFunction Apply).
    - unfold begin. by rewrite HB.
    - intros EAD0.
      rewrite canSpecializeExistentialArgsInFunction_unfold, Hargs.
      case_bool_decide; [|done].
      intros Hcrash.
      assert (∀ k i s f,
                forIndices
                  (canSpecializeExistentialArg ConcreteExistentialInfo Apply
                     CalleeArgs (getOrigCalleeConv Apply)) i k s st
                = Crash f → f = IndexOutOfRange) as Hloop.
      { clear. induction k as [|k IH]; intros i s f; [done|].
        rewrite forIndices_S.
        destruct (canSpecializeExistentialArg _ _ _ _ _ _ _)
          as [r st1|f'] eqn:Hb.
        - destruct s as [flag m].
          apply canSpecializeExistentialArg_done in Hb as [-> _]. apply IH.
        - intros [= <-]. revert Hb. destruct s as [flag m].
          unfold canSpecializeExistentialArg, index, getArgumentRef,
            getParamInfoForSILArg. pass_unfold.
          repeat (match goal with
                  | |- context [match ?x !! ?i with _ => _ end] =>
                      destruct (x !! i); simpl
                  | |- context [if ?b then _ else _] => destruct b; simpl
                  | |- context [match ?o with Some _ => _ | None => _ end] =>
                      destruct o; simpl
                  end); congruence. }
      by apply Hloop in Hcrash. }
  split.
  - rewrite specializeExistentialArgsInApply_unfold,
      prepareExistentialTransform_unfold.
    destruct (FullApplySite_isa I) as [Apply|]; [|done].
    destruct (canSpecializeCalleeFunction Apply st) as [b st1|f'] eqn:Hf.
    2: { by rewrite canSpecializeCalleeFunction_eq in Hf. }
    assert (st1 = st) as ->.
    { rewrite canSpecializeCalleeFunction_eq in Hf. by injection Hf. }
    destruct b; [|done].
    destruct (Hsafe Apply Hf) as (n & F & B & _ & _ & _ & Hnocrash).
    destruct (canSpecializeCalleeFunction_true _ _ Hf)
      as (n' & F' & CalleeArgs & Href & Hargs).
    rewrite Href, Hargs. specialize (Hnocrash ∅).
    destruct (analyze Apply ∅ st) as [[[] ?] ?|f]; [done..|].
    congruence.
  - intros Apply HI. split; [apply Hsafe|].
    rewrite getReferencedFunction_eq. intros [= Hnull].
    assert (referencedFunction (Functions st) Apply = None) as Href.
    { by destruct (referencedFunction (Functions st) Apply). }
    assert (canSpecializeCalleeFunction Apply st = Done false st) as Hf.
    { by rewrite canSpecializeCalleeFunction_eq, Href. }
    split; [done|]. split.
    + by rewrite specializeExistentialArgsInApply_unfold,
        prepareExistentialTransform_unfold, HI, Hf.
    + intros EAD0. rewrite canSpecializeExistentialArgsInFunction_unfold.
      unfold calleeArguments. by rewrite Href.
Qed.

(** Over a whole run of the loop the three bookkeeping actions stay in step:
    the counter, the worklist and the invalidations grow by the same number,
    the number of call sites rewritten. *)
Lemma specializeExistentialArgsInApply_in_step I st st' :
  visit I st = Done tt st' →
  ∃ k, NumFunctionsWithExistentialArgsSpecialized st'
       = NumFunctionsWithExistentialArgsSpecialized st + k ∧
       length (Worklist st') = length (Worklist st) + k ∧
       length (Invalidated st') = length (Invalidated st) + k.
Proof.
  rewrite specializeExistentialArgsInApply_unfold.
  destruct (prepare I st) as [[[Callee ET]|] st1|]; [| |done].
  - intros [= <-]. unfold finished.
    destruct (ExistentialTransform_run ET (Functions st)) as [[[] ET'] M'].
    + exists 1. simpl. rewrite !length_app. simpl. lia.
    + exists 0. simpl. lia.
  - intros [= <-]. exists 0. lia.
Qed.

Lemma forEach_in_step {A} (body : A → Pass unit) (l : list A) :
  (∀ a st st', body a st = Done tt st' →
     ∃ k, NumFunctionsWithExistentialArgsSpecialized st'
          = NumFunctionsWithExistentialArgsSpecialized st + k ∧
          length (Worklist st') = length (Worklist st) + k ∧
          length (Invalidated st') = length (Invalidated st) + k) →
  ∀ st st', forEach body l st = Done tt st' →
    ∃ k, NumFunctionsWithExistentialArgsSpecialized st'
         = NumFunctionsWithExistentialArgsSpecialized st + k ∧
         length (Worklist st') = length (Worklist st) + k ∧
         length (Invalidated st') = length (Invalidated st) + k.
Proof.
  intros Hbody. induction l as [|a l IH]; intros st st'; simpl.
  - intros [= <-]. exists 0. lia.
  - unfold mbind, Pass_bind.
    destruct (body a st) as [[] st1|] eqn:Ha; [|done].
    intros Hl. apply Hbody in Ha as (k1 & ? & ? & ?).
    apply IH in Hl as (k2 & ? & ? & ?). exists (k1 + k2). lia.
Qed.

Lemma specializeExistentialArgsInAppliesWithinFunction_in_step F st st' :
  specializeExistentialArgsInAppliesWithinFunction ConcreteExistentialInfo
    ExistentialTransform_run F st = Done tt st' →
  ∃ k, NumFunctionsWithExistentialArgsSpecialized st'
       = NumFunctionsWithExistentialArgsSpecialized st + k ∧
       length (Worklist st') = length (Worklist st) + k ∧
       length (Invalidated st') = length (Invalidated st) + k.
Proof.
  apply forEach_in_step. intros BB. apply forEach_in_step.
  apply specializeExistentialArgsInApply_in_step.
Qed.

End Orchestrator.

(** * Further properties *)

(** ** The scan of the use list and the filter *)

(** X1: [findIfCalleeUsesArgInDestroyUse] only ever sets the flag.  It leaves
    [AccessType] alone, the flag after it is the flag before it or the
    presence of a [destroy_addr] among the uses, so a flag that was set stays
    set; running it twice is running it once, and on an argument without
    uses it changes nothing. *)
Theorem findIfCalleeUsesArgInDestroyUse_only_sets_flag Arg ETAD :
  AccessType (findIfCalleeUsesArgInDestroyUse Arg ETAD) = AccessType ETAD ∧
  DestroyAddrUse (findIfCalleeUsesArgInDestroyUse Arg ETAD)
  = DestroyAddrUse ETAD || usedInDestroyAddr Arg ∧
  findIfCalleeUsesArgInDestroyUse Arg
    (findIfCalleeUsesArgInDestroyUse Arg ETAD)
  = findIfCalleeUsesArgInDestroyUse Arg ETAD ∧
  (getUses Arg = [] → findIfCalleeUsesArgInDestroyUse Arg ETAD = ETAD).
Proof.
  unfold findIfCalleeUsesArgInDestroyUse, usedInDestroyAddr.
  rewrite !findIfCalleeUsesArgInDestroyUse_uses_eq.
  destruct (existsb _ (getUses Arg)) eqn:Hex; simpl.
  - rewrite orb_true_r. repeat split. intros Hnil.
    by rewrite Hnil in Hex.
  - rewrite orb_false_r. by repeat split.
Qed.

(** X2: the answer of the filter belongs to the callee.  Two apply sites of
    any kind, with any operands, that refer to the same function get the same
    answer, in any two states of the pass whose modules hold the same
    function under that name. *)
Theorem canSpecializeCalleeFunction_per_callee Apply1 Apply2 st1 st2 :
  CalleeFunctionRef (Site Apply1) = CalleeFunctionRef (Site Apply2) →
  (∀ n, CalleeFunctionRef (Site Apply1) = Some n →
        Functions st1 !! n = Functions st2 !! n) →
  ∃ b, canSpecializeCalleeFunction Apply1 st1 = Done b st1 ∧
       canSpecializeCalleeFunction Apply2 st2 = Done b st2.
Proof.
  intros Href Hsame. rewrite !canSpecializeCalleeFunction_eq.
  eexists. split; [reflexivity|]. f_equal.
  unfold referencedFunction. rewrite <- Href.
  destruct (CalleeFunctionRef (Site Apply1)) as [n|]; simpl; [|done].
  by rewrite (Hsame n eq_refl).
Qed.

(** ** The analysis of the arguments, further *)

Lemma readsPastCallSite_true resolve M Apply CalleeArgs Idx :
  readsPastCallSite resolve M Apply CalleeArgs Idx = true ↔
  ∃ a, CalleeArgs !! Idx = Some a ∧
       specializableType (getType a) = true ∧
       (ArgumentOperands (Site Apply) !! Idx = None ∨
        ∃ v T, ArgumentOperands (Site Apply) !! Idx = Some v ∧
               resolve M v (getInstruction Apply) = Some T ∧
               getOrigCalleeConv Apply !! Idx = None).
Proof.
  unfold readsPastCallSite.
  destruct (CalleeArgs !! Idx) as [a|] eqn:Ha.
  2: { split; [done|]. by intros (? & ? & _). }
  destruct (specializableType (getType a)) eqn:Ht; simpl.
  2: { split; [done|]. intros (? & [= <-] & ? & _). congruence. }
  destruct (ArgumentOperands (Site Apply) !! Idx) as [v|] eqn:Hv.
  2: { split; [|done]. intros _. exists a. by eauto. }
  destruct (resolve M v (getInstruction Apply)) as [T|] eqn:HT.
  2: { split; [done|].
       intros (? & _ & _ & [|(? & ? & [= <-] & ? & _)]); congruence. }
  destruct (getOrigCalleeConv Apply !! Idx) as [p|] eqn:Hp.
  - split; [done|]. by intros (? & _ & _ & [|(? & ? & _ & _ & ?)]).
  - split; [|done]. intros _. exists a. do 2 (split; [done|]). right.
    by exists v, T.
Qed.

Section AnalyzerFurther.

Variable ConcreteExistentialInfo :
  gmap string SILFunction -> SILValue -> SILInstruction -> option CanType.

Local Abbreviation analyze :=
  (canSpecializeExistentialArgsInFunction ConcreteExistentialInfo).
Local Abbreviation descriptor := (descriptorAt ConcreteExistentialInfo).
Local Abbreviation past := (readsPastCallSite ConcreteExistentialInfo).

(** One turn of the loop either returns, in the same state, or indexes out
    of range; which of the two is decided by [readsPastCallSite]. *)
Lemma canSpecializeExistentialArg_outcome Apply CalleeArgs Idx s st :
  Idx < length CalleeArgs →
  if past (Functions st) Apply CalleeArgs Idx
  then canSpecializeExistentialArg ConcreteExistentialInfo Apply CalleeArgs
         (getOrigCalleeConv Apply) Idx s st = Crash IndexOutOfRange
  else ∃ r, canSpecializeExistentialArg ConcreteExistentialInfo Apply
              CalleeArgs (getOrigCalleeConv Apply) Idx s st = Done r st.
Proof.
  intros [a Ha]%lookup_lt_is_Some_2. destruct s as [flag m].
  unfold readsPastCallSite, specializableType, canSpecializeExistentialArg,
    index, getArgumentRef, getParamInfoForSILArg.
  pass_unfold. rewrite Ha. simpl.
  destruct (isExistentialType (getType a)); simpl; [|by eexists].
  destruct (isAnyObject (getType a)); simpl; [by eexists|].
  destruct (isAny (getASTType (getType a))); simpl; [by eexists|].
  destruct (getPreferredExistentialRepresentation (getType a)); simpl;
    try (by eexists).
  all: destruct (ArgumentOperands (Site Apply) !! Idx) as [v|]; simpl;
    [|done].
  all: destruct (ConcreteExistentialInfo (Functions st) v
                   (getInstruction Apply)); simpl; [|by eexists].
  all: destruct (getOrigCalleeConv Apply !! Idx) as [p|]; simpl; [|done].
  all: by eexists.
Qed.

Lemma forIndices_canSpecializeExistentialArg_outcome Apply CalleeArgs n :
  ∀ i s st,
    i + n ≤ length CalleeArgs →
    if existsb (past (Functions st) Apply CalleeArgs) (seq i n)
    then forIndices
           (canSpecializeExistentialArg ConcreteExistentialInfo Apply
              CalleeArgs (getOrigCalleeConv Apply)) i n s st
         = Crash IndexOutOfRange
    else ∃ r, forIndices
                (canSpecializeExistentialArg ConcreteExistentialInfo Apply
                   CalleeArgs (getOrigCalleeConv Apply)) i n s st
              = Done r st.
Proof.
  induction n as [|n IH]; intros i s st Hle.
  - simpl. by eexists.
  - rewrite forIndices_S. cbn [seq existsb].
    pose proof (canSpecializeExistentialArg_outcome Apply CalleeArgs i s st)
      as Hbody.
    destruct (past (Functions st) Apply CalleeArgs i); simpl.
    + rewrite Hbody by lia. done.
    + destruct Hbody as [r ->]; [lia|]. apply IH. lia.
Qed.

(** With a callee that has an entry block and the index of the first applied
    argument at 0, the analysis returns in the same state or indexes out of
    range. *)
Lemma canSpecializeExistentialArgsInFunction_outcome Apply EAD0 st CalleeArgs :
  calleeArguments (Functions st) Apply = Some CalleeArgs →
  getCalleeArgIndexOfFirstAppliedArg Apply = 0 →
  if existsb (past (Functions st) Apply CalleeArgs)
             (seq 0 (length CalleeArgs))
  then analyze Apply EAD0 st = Crash IndexOutOfRange
  else ∃ flag EAD, analyze Apply EAD0 st = Done (flag, EAD) st.
Proof.
  intros Hargs H0.
  rewrite canSpecializeExistentialArgsInFunction_unfold, Hargs.
  rewrite bool_decide_eq_true_2 by done.
  pose proof (forIndices_canSpecializeExistentialArg_outcome Apply CalleeArgs
                (length CalleeArgs) 0 (false, EAD0) st) as Hloop.
  destruct (existsb _ _); [apply Hloop; simpl; lia|].
  destruct Hloop as [[flag EAD] Hr]; [simpl; lia|]. by exists flag, EAD.
Qed.

Lemma existsb_readsPastCallSite M Apply CalleeArgs :
  existsb (past M Apply CalleeArgs) (seq 0 (length CalleeArgs)) = true ↔
  ∃ Idx a,
    CalleeArgs !! Idx = Some a ∧
    specializableType (getType a) = true ∧
    (ArgumentOperands (Site Apply) !! Idx = None ∨
     ∃ v T, ArgumentOperands (Site Apply) !! Idx = Some v ∧
            ConcreteExistentialInfo M v (getInstruction Apply) = Some T ∧
            getOrigCalleeConv Apply !! Idx = None).
Proof.
  rewrite existsb_exists. split.
  - intros (Idx & _ & Hp). apply readsPastCallSite_true in Hp as (a & Hp).
    by exists Idx, a.
  - intros (Idx & a & Ha & Hp). exists Idx. split.
    + apply in_seq. apply lookup_lt_Some in Ha. lia.
    + apply readsPastCallSite_true. by exists a.
Qed.


(** X3: the bounds of the call site.  For a callee with an entry block and
    the index of the first applied argument at 0, the analysis indexes out
    of range exactly when some callee argument whose type qualifies has no
    operand at its index, or has one of known concrete type and no
    parameter convention at its index; in every other case it returns, in
    the state it started in.  Arguments whose type does not qualify are
    never looked up at the call site. *)
Theorem canSpecializeExistentialArgsInFunction_out_of_range_iff
    Apply EAD0 st CalleeArgs :
  calleeArguments (Functions st) Apply = Some CalleeArgs →
  getCalleeArgIndexOfFirstAppliedArg Apply = 0 →
  (analyze Apply EAD0 st = Crash IndexOutOfRange ↔
   ∃ Idx a,
     CalleeArgs !! Idx = Some a ∧
     specializableType (getType a) = true ∧
     (ArgumentOperands (Site Apply) !! Idx = None ∨
      ∃ v T, ArgumentOperands (Site Apply) !! Idx = Some v ∧
             ConcreteExistentialInfo (Functions st) v (getInstruction Apply)
             = Some T ∧
             getOrigCalleeConv Apply !! Idx = None)) ∧
  (analyze Apply EAD0 st = Crash IndexOutOfRange ∨
   ∃ flag EAD, analyze Apply EAD0 st = Done (flag, EAD) st).
Proof.
  intros Hargs H0.
  pose proof (canSpecializeExistentialArgsInFunction_outcome Apply EAD0 st
                CalleeArgs Hargs H0) as Hout.
  rewrite <- existsb_readsPastCallSite.
  destruct (existsb _ _).
  - split; [done|]. by left.
  - destruct Hout as (flag & EAD & Hr). split.
    + rewrite Hr. done.
    + right. by exists flag, EAD.
Qed.

(** X4: the analysis misses no argument.  When it returns, every callee
    argument whose type is existential, neither [Any] nor [AnyObject], and
    represented as [Opaque] or [Class], and whose operand at the call site
    has a known concrete type, has an entry in the map; the entry is the
    descriptor computed from the parameter convention and, for [Opaque],
    from the uses; and the flag is [true]. *)
Theorem every_eligible_argument_is_recorded
    Apply EAD0 st flag EAD st' CalleeArgs Idx CalleeArg ArgOper ConcreteType :
  analyze Apply EAD0 st = Done (flag, EAD) st' →
  calleeArguments (Functions st) Apply = Some CalleeArgs →
  CalleeArgs !! Idx = Some CalleeArg →
  isExistentialType (getType CalleeArg) = true →
  isAnyObject (getType CalleeArg) = false →
  isAny (getASTType (getType CalleeArg)) = false →
  (getPreferredExistentialRepresentation (getType CalleeArg)
   = ExistentialRepresentation.Opaque ∨
   getPreferredExistentialRepresentation (getType CalleeArg)
   = ExistentialRepresentation.Class) →
  ArgumentOperands (Site Apply) !! Idx = Some ArgOper →
  ConcreteExistentialInfo (Functions st) ArgOper (getInstruction Apply)
  = Some ConcreteType →
  flag = true ∧
  ∃ paramInfo,
    getOrigCalleeConv Apply !! Idx = Some paramInfo ∧
    EAD !! Idx =
    Some (mkETAD
            (if isIndirectMutating paramInfo || isConsumed paramInfo
             then OpenedExistentialAccess.Mutable
             else OpenedExistentialAccess.Immutable)
            (bool_decide
               (getPreferredExistentialRepresentation (getType CalleeArg)
                = ExistentialRepresentation.Opaque)
             && usedInDestroyAddr CalleeArg)).
Proof.
  intros Hdone Hargs Ha Hex Hobj Hany Hrepr Hv HT.
  assert (Ht : specializableType (getType CalleeArg) = true).
  { by apply specializableType_true. }
  pose proof Hdone as Hdone'.
  apply canSpecializeExistentialArgsInFunction_done in Hdone'
    as (CalleeArgs' & Hargs' & H0 & -> & Hm & Hf).
  rewrite Hargs in Hargs'. injection Hargs' as <-.
  destruct (getOrigCalleeConv Apply !! Idx) as [p|] eqn:Hp.
  - assert (Hd : descriptor (Functions st) Apply CalleeArgs Idx
                 = Some (mkETAD
                           (if isIndirectMutating p || isConsumed p
                            then OpenedExistentialAccess.Mutable
                            else OpenedExistentialAccess.Immutable)
                           (bool_decide
                              (getPreferredExistentialRepresentation
                                 (getType CalleeArg)
                               = ExistentialRepresentation.Opaque)
                            && usedInDestroyAddr CalleeArg))).
    { apply descriptorAt_Some. by exists CalleeArg, ArgOper, ConcreteType, p. }
    split.
    + apply Hf. exists Idx. by rewrite Hd.
    + exists p. split; [done|]. by rewrite Hm, Hd.
  - pose proof (canSpecializeExistentialArgsInFunction_outcome Apply EAD0 st
                  CalleeArgs Hargs H0) as Hout.
    assert (existsb (past (Functions st) Apply CalleeArgs)
                    (seq 0 (length CalleeArgs)) = true) as Hpast.
    { apply existsb_readsPastCallSite. exists Idx, CalleeArg.
      do 2 (split; [done|]). right. by exists ArgOper, ConcreteType. }
    rewrite Hpast in Hout. congruence.
Qed.

(** X5: what was in the map stays in it.  The analysis never removes an
    entry of the map it is given, so the map does not shrink; and at every
    index beyond the callee arguments, or of an argument whose type does not
    qualify, or whose operand has no known concrete type, the map is as it
    was passed in. *)
Theorem incoming_entries_survive Apply EAD0 st flag EAD st' :
  analyze Apply EAD0 st = Done (flag, EAD) st' →
  (∀ Idx, is_Some (EAD0 !! Idx) → is_Some (EAD !! Idx)) ∧
  size EAD0 ≤ size EAD ∧
  ∃ CalleeArgs,
    calleeArguments (Functions st) Apply = Some CalleeArgs ∧
    ∀ Idx,
      (length CalleeArgs ≤ Idx ∨
       (∃ a, CalleeArgs !! Idx = Some a ∧
             specializableType (getType a) = false) ∨
       (∃ v, ArgumentOperands (Site Apply) !! Idx = Some v ∧
             ConcreteExistentialInfo (Functions st) v (getInstruction Apply)
             = None)) →
      EAD !! Idx = EAD0 !! Idx.
Proof.
  intros Hdone.
  apply canSpecializeExistentialArgsInFunction_done in Hdone
    as (CalleeArgs & Hargs & _ & -> & Hm & _).
  assert (Hkeep : ∀ Idx, is_Some (EAD0 !! Idx) → is_Some (EAD !! Idx)).
  { intros Idx Hs. rewrite Hm.
    by destruct (descriptor (Functions st) Apply CalleeArgs Idx). }
  split; [done|]. split.
  - rewrite <- !size_dom. apply subseteq_size. intros Idx.
    rewrite !elem_of_dom. apply Hkeep.
  - exists CalleeArgs. split; [done|]. intros Idx Hcase. rewrite Hm.
    destruct (descriptor (Functions st) Apply CalleeArgs Idx) as [d|] eqn:Hd;
      [|done].
    apply descriptorAt_Some in Hd
      as (a & v & T & p & Ha & Ht & Hv & HT & _ & _).
    destruct Hcase as [Hlen|[(a' & Ha' & Hf)|(v' & Hv' & HN)]].
    + apply lookup_lt_Some in Ha. lia.
    + congruence.
    + congruence.
Qed.

(** X10: the order of the failures of the analysis run on its own.  It
    dereferences an invalid pointer exactly when the call site has no
    referenced function in the module or that function has no entry block;
    it fails its assertion exactly when there is an entry block and the
    index of the first applied argument is not 0, before any argument or
    operand is looked at. *)
Theorem canSpecializeExistentialArgsInFunction_failure_order Apply EAD0 st :
  (analyze Apply EAD0 st = Crash InvalidDereference ↔
   calleeArguments (Functions st) Apply = None) ∧
  (analyze Apply EAD0 st = Crash AssertionFailure ↔
   is_Some (calleeArguments (Functions st) Apply) ∧
   getCalleeArgIndexOfFirstAppliedArg Apply ≠ 0).
Proof.
  destruct (calleeArguments (Functions st) Apply) as [CalleeArgs|] eqn:Hargs.
  2: { rewrite canSpecializeExistentialArgsInFunction_unfold, Hargs.
       split; split; try done. by intros [[? ?] _]. }
  destruct (decide (getCalleeArgIndexOfFirstAppliedArg Apply = 0)) as [H0|H0].
  - pose proof (canSpecializeExistentialArgsInFunction_outcome Apply EAD0 st
                  CalleeArgs Hargs H0) as Hout.
    destruct (existsb _ _).
    + rewrite Hout. split; split; try done. by intros [_ ?].
    + destruct Hout as (flag & EAD & ->).
      split; split; try done. by intros [_ ?].
  - rewrite canSpecializeExistentialArgsInFunction_unfold, Hargs.
    rewrite bool_decide_eq_false_2 by done.
    by split; split.
Qed.

(** X11: the analysis on a map that is not empty.  When the analysis returns
    on a map with entries, it returns on the empty map too, with the same
    flag, and the map it gives back is the map of that run laid over the
    entries that were there; run once more on its own result, it returns
    that result. *)
Theorem canSpecializeExistentialArgsInFunction_overlay
    Apply EAD0 st flag EAD st' :
  canSpecializeExistentialArgsInFunction ConcreteExistentialInfo Apply EAD0 st
  = Done (flag, EAD) st' →
  ∃ fresh,
    canSpecializeExistentialArgsInFunction ConcreteExistentialInfo Apply ∅ st
    = Done (flag, fresh) st ∧
    EAD = fresh ∪ EAD0 ∧
    canSpecializeExistentialArgsInFunction ConcreteExistentialInfo Apply EAD st
    = Done (flag, EAD) st.
Proof.
  intros Hdone. pose proof Hdone as Hdone'.
  apply canSpecializeExistentialArgsInFunction_done in Hdone'
    as (CalleeArgs & Hargs & H0 & -> & Hm & Hf).
  assert (Hagain : ∀ m, ∃ EAD1,
            analyze Apply m st = Done (flag, EAD1) st ∧
            ∀ Idx, EAD1 !! Idx
                   = from_option Some (m !! Idx)
                       (descriptor (Functions st) Apply CalleeArgs Idx)).
  { intros m.
    pose proof (canSpecializeExistentialArgsInFunction_outcome Apply m st
                  CalleeArgs Hargs H0) as Hout.
    pose proof (canSpecializeExistentialArgsInFunction_outcome Apply EAD0 st
                  CalleeArgs Hargs H0) as Hout0.
    destruct (existsb _ _); [congruence|].
    destruct Hout as (flag1 & EAD1 & Hr). pose proof Hr as Hr'.
    apply canSpecializeExistentialArgsInFunction_done in Hr'
      as (CalleeArgs' & Hargs' & _ & _ & Hm1 & Hf1).
    rewrite Hargs in Hargs'. injection Hargs' as <-.
    exists EAD1. split; [|done].
    assert (flag1 = flag) as ->; [|done].
    destruct flag, flag1; try done;
      [apply Hf1; by apply Hf | symmetry; apply Hf; by apply Hf1]. }
  destruct (Hagain ∅) as (fresh & Hfresh & Hm1).
  exists fresh. split; [done|]. split.
  - apply map_eq. intros Idx. rewrite lookup_union, Hm, Hm1, lookup_empty.
    destruct (descriptor (Functions st) Apply CalleeArgs Idx); simpl.
    + by destruct (EAD0 !! Idx).
    + by destruct (EAD0 !! Idx).
  - destruct (Hagain EAD) as (EAD2 & Hr2 & Hm2).
    rewrite Hr2. do 2 f_equal. apply map_eq. intros Idx.
    rewrite Hm2, Hm.
    by destruct (descriptor (Functions st) Apply CalleeArgs Idx).
Qed.

End AnalyzerFurther.

(** ** The loop over the call sites, further *)




Lemma forEach_unchanged {A} (body : A → Pass unit) (l : list A) st :
  (∀ a, a ∈ l → body a st = Done tt st) → forEach body l st = Done tt st.
Proof.
  induction l as [|a l IH]; intros Hbody; simpl; [done|].
  unfold mbind, Pass_bind. rewrite Hbody by left.
  apply IH. intros b Hb. apply Hbody. by right.
Qed.

Lemma forEach_no_invalid_dereference {A} (body : A → Pass unit) (l : list A) :
  (∀ a st, body a st ≠ Crash InvalidDereference) →
  ∀ st, forEach body l st ≠ Crash InvalidDereference.
Proof.
  intros Hbody. induction l as [|a l IH]; intros st; simpl; [done|].
  unfold mbind, Pass_bind.
  destruct (body a st) as [[] st1|f] eqn:Ha; [apply IH|].
  intros [= ->]. by apply (Hbody a st).
Qed.



Section OrchestratorFurther.

Variable ConcreteExistentialInfo :
  gmap string SILFunction -> SILValue -> SILInstruction -> option CanType.
Variable ExistentialTransform_run :
  ExistentialTransform -> gmap string SILFunction ->
  bool * ExistentialTransform * gmap string SILFunction.

Local Abbreviation analyze :=
  (canSpecializeExistentialArgsInFunction ConcreteExistentialInfo).
Local Abbreviation prepare :=
  (prepareExistentialTransform ConcreteExistentialInfo).
Local Abbreviation visit :=
  (specializeExistentialArgsInApply ConcreteExistentialInfo
     ExistentialTransform_run).
Local Abbreviation specialize :=
  (specializeExistentialArgsInAppliesWithinFunction ConcreteExistentialInfo
     ExistentialTransform_run).

(** X6: what a transform is built from.  When the first part of the loop
    body builds a transform, the instruction is a full apply site whose
    callee the filter has let through and for which the analysis has
    returned [true]; the transform is for that callee, its mangler is the one
    of function-signature optimization for the same callee and its
    serialization state, its map is the map of the analysis and is not
    empty, and it has no specialized function yet.  The state is as
    before. *)
Theorem prepareExistentialTransform_Some I st Callee ET st1 :
  prepare I st = Done (Some (Callee, ET)) st1 →
  st1 = st ∧
  ∃ Apply n F EAD,
    FullApplySite_isa I = Some Apply ∧
    referencedFunction (Functions st) Apply = Some (n, F) ∧
    canSpecializeCalleeFunction Apply st = Done true st ∧
    analyze Apply ∅ st = Done (true, EAD) st ∧
    Callee = Some n ∧
    ET_F ET = Some n ∧
    ET_Mangler ET
    = mkMangler "FunctionSignatureOpts" (isSerialized F) (Some n) ∧
    ET_ExistentialArgDescriptor ET = EAD ∧
    EAD ≠ ∅ ∧
    getExistentialSpecializedFunction ET = None.
Proof.
  intros Hp.
  pose proof (prepareExistentialTransform_frame _ _ _ _ _ Hp) as ->.
  split; [done|].
  rewrite prepareExistentialTransform_unfold in Hp.
  destruct (FullApplySite_isa I) as [Apply|]; [|done].
  destruct (canSpecializeCalleeFunction Apply st) as [[] st2|] eqn:Hf;
    [|done..].
  assert (st2 = st) as ->.
  { rewrite canSpecializeCalleeFunction_eq in Hf. by injection Hf. }
  destruct (analyze Apply ∅ st) as [[[] EAD] st3|] eqn:Han; [|done..].
  pose proof Han as Han'.
  apply canSpecializeExistentialArgsInFunction_done in Han'
    as (CalleeArgs & Hargs & _ & -> & Hm & Hflag).
  destruct (referencedFunction (Functions st) Apply) as [[n F]|] eqn:Href;
    [|done].
  rewrite Hargs in Hp. injection Hp as <- <-.
  exists Apply, n, F, EAD. simpl. repeat split; try done.
  intros ->. destruct Hflag as [Hflag _].
  destruct (Hflag eq_refl) as (Idx & d & Hd).
  specialize (Hm Idx). rewrite Hd, lookup_empty in Hm. done.
Qed.

Lemma specializeExistentialArgsInApply_skips I st :
  (FullApplySite_isa I = None ∨
   ∃ Apply, FullApplySite_isa I = Some Apply ∧
            (canSpecializeCalleeFunction Apply st = Done false st ∨
             ∃ EAD, analyze Apply ∅ st = Done (false, EAD) st)) →
  visit I st = Done tt st.
Proof.
  rewrite specializeExistentialArgsInApply_unfold,
    prepareExistentialTransform_unfold.
  intros [->|(Apply & -> & Hno)]; [done|].
  destruct (canSpecializeCalleeFunction Apply st) as [[] st2|f] eqn:Hf.
  - destruct Hno as [|[EAD ->]]; done.
  - done.
  - by rewrite canSpecializeCalleeFunction_eq in Hf.
Qed.

(** X7: nothing to do, nothing done.  On a function all of whose
    instructions are something else than a full apply site (a
    [partial_apply], say), or a call of a callee the filter rejects, or a
    call for which the analysis returns [false], the loop returns and leaves
    the whole state of the pass as it was, whatever the rewriter would
    do. *)
Theorem specializeExistentialArgsInAppliesWithinFunction_nothing_to_do F st :
  (∀ BB I, BB ∈ Blocks F → I ∈ Instructions BB →
     FullApplySite_isa I = None ∨
     ∃ Apply, FullApplySite_isa I = Some Apply ∧
              (canSpecializeCalleeFunction Apply st = Done false st ∨
               ∃ EAD, analyze Apply ∅ st = Done (false, EAD) st)) →
  specialize F st = Done tt st.
Proof.
  intros Hall. unfold specializeExistentialArgsInAppliesWithinFunction.
  apply forEach_unchanged. intros BB HBB.
  apply forEach_unchanged. intros I HI.
  apply specializeExistentialArgsInApply_skips. by apply (Hall BB I).
Qed.




Lemma specializeExistentialArgsInApply_no_invalid_dereference I st :
  visit I st ≠ Crash InvalidDereference.
Proof.
  rewrite specializeExistentialArgsInApply_unfold,
    prepareExistentialTransform_unfold.
  destruct (FullApplySite_isa I) as [Apply|]; [|done].
  destruct (canSpecializeCalleeFunction Apply st) as [b st2|f] eqn:Hf.
  2: { by rewrite canSpecializeCalleeFunction_eq in Hf. }
  assert (st2 = st) as ->.
  { rewrite canSpecializeCalleeFunction_eq in Hf. by injection Hf. }
  destruct b; [|done].
  destruct (canSpecializeCalleeFunction_true _ _ Hf)
    as (n & F & CalleeArgs & Href & Hargs).
  rewrite Href, Hargs.
  destruct (decide (getCalleeArgIndexOfFirstAppliedArg Apply = 0)) as [H0|H0].
  - pose proof (canSpecializeExistentialArgsInFunction_outcome
                  ConcreteExistentialInfo Apply ∅ st CalleeArgs Hargs H0)
      as Hout.
    destruct (existsb _ _).
    + by rewrite Hout.
    + destruct Hout as (flag & EAD & ->). by destruct flag.
  - rewrite canSpecializeExistentialArgsInFunction_unfold, Hargs.
    by rewrite bool_decide_eq_false_2.
Qed.

(** X9: the entry point.  [run] dereferences an invalid pointer exactly when
    the function it is run on is null or not in the module: nothing in the
    loop ever does.  On a function that should not be optimized, or with the
    pass switched off, it returns at once and leaves the state as it was,
    whatever the function contains. *)
Theorem run_invalid_dereference_iff P st :
  (run ConcreteExistentialInfo ExistentialTransform_run P st
   = Crash InvalidDereference ↔
   ∀ n, P = Some n → Functions st !! n = None) ∧
  (∀ n F, P = Some n → Functions st !! n = Some F →
          shouldOptimize F = false ∨ OptionExistentialSpecializer st = false →
          run ConcreteExistentialInfo ExistentialTransform_run P st
          = Done tt st).
Proof.
  unfold run, deref. pass_unfold. split.
  - destruct P as [n|].
    2: { split; [|done]. by intros _ n. }
    destruct (Functions st !! n) as [F|] eqn:HF.
    + split.
      2: { intros Hn. specialize (Hn n eq_refl). congruence. }
      intros Hcrash. exfalso. revert Hcrash.
      destruct (negb (shouldOptimize F) || _); [done|].
      apply forEach_no_invalid_dereference. intros BB st0.
      apply forEach_no_invalid_dereference.
      apply specializeExistentialArgsInApply_no_invalid_dereference.
    + split; [|done]. by intros _ ? [= <-].
  - intros n F -> HF Hoff. rewrite HF.
    destruct Hoff as [-> | ->]; [done|]. by rewrite orb_true_r.
Qed.


End OrchestratorFurther.

(** * The properties at the scenarios *)

Import Scenario.

Lemma rewriter_declined_unchanged ET M :
  (rewriter ET M).1.1 = false → (rewriter ET M).2 = M.
Proof.
  unfold rewriter. destruct (ET_F ET) as [n|]; [|done].
  destruct (M !! n); [|done].
  by destruct (M !! (n ++ "Tf4e_n")%string).
Qed.

Lemma scenarioC_analysis :
  canSpecializeExistentialArgsInFunction resolver applyC ∅ stateC
  = Done (true, {[1 := descriptorC1]}) stateC.
Proof. reflexivity. Qed.

(** Scenario C, C2: the second parameter is consumed, its descriptor is
    [Mutable]. *)
Lemma AccessType_Mutable_iff_witness :
  ∃ paramInfo,
    getOrigCalleeConv applyC !! 1 = Some paramInfo ∧
    (AccessType descriptorC1 = OpenedExistentialAccess.Mutable ↔
     getConvention paramInfo = ParameterConvention.IndirectMutating ∨
     getConvention paramInfo = ParameterConvention.Consumed) ∧
    (AccessType descriptorC1 = OpenedExistentialAccess.Immutable ↔
     getConvention paramInfo ≠ ParameterConvention.IndirectMutating ∧
     getConvention paramInfo ≠ ParameterConvention.Consumed) ∧
    (AccessType descriptorC1 = OpenedExistentialAccess.Mutable ∨
     AccessType descriptorC1 = OpenedExistentialAccess.Immutable).
Proof.
  apply (AccessType_Mutable_iff resolver applyC ∅ stateC true
           {[1 := descriptorC1]} stateC 1 descriptorC1).
  - reflexivity.
  - reflexivity.
  - vm_compute. discriminate.
Defined.

(** Scenario C, C3: the second parameter is opaque and a [destroy_addr] uses
    it, so its descriptor has [DestroyAddrUse]; the uses before and after the
    [destroy_addr] are of another kind. *)
Lemma DestroyAddrUse_iff_witness :
  DestroyAddrUse descriptorC1 = true ∧
  ∃ ArgUse, ArgUse ∈ getUses argC1 ∧
            isa_DestroyAddrInst (getUser ArgUse) = true.
Proof.
  destruct (DestroyAddrUse_iff resolver applyC ∅ stateC true
              {[1 := descriptorC1]} stateC 1 descriptorC1)
    as (CalleeArgs & CalleeArg & Hargs & Harg & _ & Hopaque & _).
  - reflexivity.
  - reflexivity.
  - vm_compute. discriminate.
  - injection Hargs as <-. injection Harg as <-.
    split; [reflexivity|]. by apply Hopaque.
Defined.

(** Scenario C, C4: the only key is the index of the second parameter. *)
Lemma ExistentialArgDescriptor_keys_witness :
  ∃ CalleeArgs CalleeArg ArgOper ConcreteType,
    calleeArguments (Functions stateC) applyC = Some CalleeArgs ∧
    CalleeArgs !! 1 = Some CalleeArg ∧
    isExistentialType (getType CalleeArg) = true ∧
    isAny (getASTType (getType CalleeArg)) = false ∧
    isAnyObject (getType CalleeArg) = false ∧
    (getPreferredExistentialRepresentation (getType CalleeArg)
     = ExistentialRepresentation.Opaque ∨
     getPreferredExistentialRepresentation (getType CalleeArg)
     = ExistentialRepresentation.Class) ∧
    ArgumentOperands (Site applyC) !! 1 = Some ArgOper ∧
    resolver (Functions stateC) ArgOper (getInstruction applyC)
    = Some ConcreteType.
Proof.
  apply (ExistentialArgDescriptor_keys resolver applyC ∅ stateC true
           {[1 := descriptorC1]} stateC 1 descriptorC1).
  - reflexivity.
  - reflexivity.
  - vm_compute. discriminate.
Defined.

(** Scenario C, C8: the analysis returns the flag [true], and the map comes
    back with an entry. *)
Lemma canSpecializeExistentialArgsInFunction_pure_witness :
  canSpecializeExistentialArgsInFunction resolver applyC ∅ stateC
  = Done (true, {[1 := descriptorC1]}) stateC ∧
  ∃ Idx d, ({[1 := descriptorC1]} : gmap nat _) !! Idx = Some d.
Proof.
  split; [reflexivity|].
  destruct (canSpecializeExistentialArgsInFunction_pure resolver applyC ∅
              stateC true {[1 := descriptorC1]} stateC)
    as (_ & _ & Htrue & _).
  - reflexivity.
  - by apply Htrue.
Defined.

(** C5 along its three ways: in scenario B the callee has an indirect
    result and the filter rejects it; in scenario A with an operand of
    unknown concrete type the analysis finds nothing; in scenario A after a
    first specialization the rewriter declines.  Nothing changes in any of
    them. *)
Lemma rejected_call_site_unchanged_witness :
  specializeExistentialArgsInApply resolver rewriter callB stateB
  = Done tt stateB ∧
  specializeExistentialArgsInApply resolver rewriter callA_unknown stateA
  = Done tt stateA ∧
  specializeExistentialArgsInApply resolver rewriter callA stateA_specialized
  = Done tt stateA_specialized.
Proof.
  split; [|split].
  - apply (rejected_call_site_unchanged resolver rewriter callB applyB stateB).
    + apply rewriter_declined_unchanged.
    + reflexivity.
    + reflexivity.
  - destruct (rejected_call_site_unchanged resolver rewriter callA_unknown
                applyA_unknown stateA rewriter_declined_unchanged eq_refl)
      as (_ & Hnone & _).
    apply (Hnone ∅); reflexivity.
  - destruct (rejected_call_site_unchanged resolver rewriter callA applyA
                stateA_specialized rewriter_declined_unchanged eq_refl)
      as (_ & _ & Hdeclined & _).
    apply (Hdeclined (Some "a"%string) transformA); reflexivity.
Defined.

(** Scenario A, C6: the rewrite succeeds; the counter goes from 0 to 1, the
    specialized function is on the worklist and the analyses of the callee
    are invalidated. *)
Lemma bookkeeping_iff_rewrite_succeeded_witness :
  ∃ st',
    specializeExistentialArgsInApply resolver rewriter callA stateA
    = Done tt st' ∧
    NumFunctionsWithExistentialArgsSpecialized st' = 1 ∧
    Worklist st' = [(Some "aTf4e_n"%string, Some "a"%string)] ∧
    Invalidated st' = [(Some "a"%string, InvalidationKind.Everything)].
Proof.
  destruct (bookkeeping_iff_rewrite_succeeded resolver rewriter callA stateA
              (Some (Some "a"%string, transformA)) stateA)
    as (st' & Hv & H).
  - reflexivity.
  - exists st'. split; [exact Hv|]. vm_compute in H.
    destruct H as (_ & Hn & Hw & Hi).
    split; [exact Hn|]. split; [exact Hw|exact Hi].
Defined.

(** Scenario C, C7: the map has one entry and the descriptor list two. *)
Lemma ArgumentDescList_covers_all_arguments_witness :
  size (ET_ExistentialArgDescriptor transformC) = 1 ∧
  length (ET_ArgumentDescList transformC) = 2 ∧
  Arg <$> ET_ArgumentDescList transformC = [argC0; argC1] ∧
  specializeExistentialArgsInApply resolver rewriter callC stateC
  = finishExistentialTransform rewriter (Some "c"%string) transformC stateC.
Proof.
  destruct (ArgumentDescList_covers_all_arguments resolver rewriter callC
              stateC (Some "c"%string) transformC stateC)
    as (Apply & CalleeArgs & HI & Hargs & Hv & Hmap & _).
  - reflexivity.
  - injection HI as <-. injection Hargs as <-.
    split; [reflexivity|]. split; [reflexivity|]. split; [exact Hmap|].
    exact Hv.
Defined.

(** C10 at a call through a value that is not a [function_ref]: the body of
    the loop leaves the state alone, while the analysis on its own would
    dereference null. *)
Lemma analyzer_dereferences_are_safe_witness :
  canSpecializeCalleeFunction applyIndirect stateA = Done false stateA ∧
  specializeExistentialArgsInApply resolver rewriter callIndirect stateA
  = Done tt stateA ∧
  canSpecializeExistentialArgsInFunction resolver applyIndirect ∅ stateA
  = Crash InvalidDereference.
Proof.
  destruct (analyzer_dereferences_are_safe resolver rewriter callIndirect
              stateA) as [_ H].
  destruct (H applyIndirect eq_refl) as [_ Hnull].
  destruct (Hnull eq_refl) as (Hf & Hv & Han).
  split; [exact Hf|]. split; [exact Hv|]. apply Han.
Defined.

(** The scenarios of the specification, run. *)

Example scenarioA_run :
  specializeExistentialArgsInApply resolver rewriter callA stateA
  = Done tt (finished rewriter (Some "a"%string) transformA stateA).
Proof. reflexivity. Qed.

Example scenarioB_run :
  specializeExistentialArgsInApply resolver rewriter callB stateB
  = Done tt stateB.
Proof. reflexivity. Qed.

Example scenarioC_run :
  prepareExistentialTransform resolver callC stateC
  = Done (Some (Some "c"%string, transformC)) stateC.
Proof. reflexivity. Qed.

Example scenarioD_run :
  canSpecializeCalleeFunction applyD stateD = Done false stateD ∧
  specializeExistentialArgsInApply resolver rewriter callD stateD
  = Done tt stateD.
Proof. split; reflexivity. Qed.

(** The pass on a caller with two calls of [a]: the first is specialized,
    the second, whose operand has no known concrete type, is left alone. *)
Example scenarioMain_run :
  run resolver rewriter (Some "main"%string) stateMain
  = Done tt (finished rewriter (Some "a"%string) transformA stateMain).
Proof. reflexivity. Qed.

(** No parameter of [e] qualifies, whatever is known of the operands. *)
Example scenarioE_run :
  canSpecializeExistentialArgsInFunction resolver applyE ∅ stateE
  = Done (false, ∅) stateE.
Proof. reflexivity. Qed.

(** * The further properties at the scenarios *)

(** X2 at two call sites of [a], with different operands, in two modules
    that both hold [a]. *)
Lemma canSpecializeCalleeFunction_per_callee_witness :
  ∃ b, canSpecializeCalleeFunction applyA stateA = Done b stateA ∧
       canSpecializeCalleeFunction applyA_unknown stateMain
       = Done b stateMain.
Proof.
  apply (canSpecializeCalleeFunction_per_callee applyA applyA_unknown stateA
           stateMain).
  - reflexivity.
  - intros n [= <-]. reflexivity.
Defined.

(** X3: the call of [f] has no operand for the second argument, which
    qualifies, and the analysis indexes out of range; the call of [g] has
    none for the second argument, which does not, and the analysis
    returns. *)
Lemma canSpecializeExistentialArgsInFunction_out_of_range_iff_witness :
  canSpecializeExistentialArgsInFunction resolver applyF ∅ stateFG
  = Crash IndexOutOfRange ∧
  ∃ flag EAD,
    canSpecializeExistentialArgsInFunction resolver applyG ∅ stateFG
    = Done (flag, EAD) stateFG.
Proof.
  split.
  - destruct (canSpecializeExistentialArgsInFunction_out_of_range_iff
                resolver applyF ∅ stateFG
                [mkSILFunctionArgument Int_type []; argA] eq_refl eq_refl)
      as [Hiff _].
    apply Hiff. exists 1, argA. split; [reflexivity|].
    split; [reflexivity|]. left. reflexivity.
  - destruct (canSpecializeExistentialArgsInFunction_out_of_range_iff
                resolver applyG ∅ stateFG
                [argA; mkSILFunctionArgument Int_type []] eq_refl eq_refl)
      as [_ [Hcrash|Hdone]].
    + vm_compute in Hcrash. discriminate.
    + exact Hdone.
Defined.

(** X4 in scenario C: the second argument qualifies and its operand is
    known, so it is recorded, with the descriptor of a consumed opaque
    argument that is destroyed in the callee. *)
Lemma every_eligible_argument_is_recorded_witness :
  ∃ paramInfo,
    getOrigCalleeConv applyC !! 1 = Some paramInfo ∧
    ({[1 := descriptorC1]} : gmap nat _) !! 1 =
    Some (mkETAD
            (if isIndirectMutating paramInfo || isConsumed paramInfo
             then OpenedExistentialAccess.Mutable
             else OpenedExistentialAccess.Immutable)
            (bool_decide
               (getPreferredExistentialRepresentation (getType argC1)
                = ExistentialRepresentation.Opaque)
             && usedInDestroyAddr argC1)).
Proof.
  destruct (every_eligible_argument_is_recorded resolver applyC ∅ stateC true
              {[1 := descriptorC1]} stateC [argC0; argC1] 1 argC1
              "%known"%string (mkCanType "S" false))
    as [_ H]; try reflexivity.
  - by left.
  - exact H.
Defined.

(** X5 in scenario C with a map that has entries already: the entries at 0,
    whose operand has no known concrete type, and at 7, beyond the
    arguments, are as they were. *)
Lemma incoming_entries_survive_witness :
  size staleMap ≤ size staleMapAfter ∧
  staleMapAfter !! 0 = staleMap !! 0 ∧
  staleMapAfter !! 7 = staleMap !! 7.
Proof.
  destruct (incoming_entries_survive resolver applyC staleMap stateC true
              staleMapAfter stateC)
    as (_ & Hsize & CalleeArgs & Hargs & Hsame).
  - reflexivity.
  - vm_compute in Hargs. injection Hargs as <-.
    split; [exact Hsize|]. split; apply Hsame.
    + right. right. exists "%unknown"%string. split; reflexivity.
    + left. simpl. lia.
Defined.

(** X6 in scenario C. *)
Lemma prepareExistentialTransform_Some_witness :
  ∃ n, ET_F transformC = Some n ∧
       ET_Mangler transformC
       = mkMangler "FunctionSignatureOpts" (isSerialized calleeC) (Some n) ∧
       ET_ExistentialArgDescriptor transformC ≠ ∅.
Proof.
  destruct (prepareExistentialTransform_Some resolver callC stateC
              (Some "c"%string) transformC stateC eq_refl)
    as (_ & Apply & n & F & EAD & HI & Href & _ & _ & _ & HF & HM & HE & Hne
        & _).
  injection HI as <-. vm_compute in Href. injection Href as <- <-.
  exists "c"%string. split; [exact HF|]. split; [exact HM|].
  rewrite HE. exact Hne.
Defined.

(** X7: the caller of [b] and [d] has a call of a callee with an indirect
    result, a [destroy_addr], a [partial_apply], a call of a declaration and
    a call whose operand has no known concrete type; nothing changes. *)
Lemma specializeExistentialArgsInAppliesWithinFunction_nothing_to_do_witness :
  specializeExistentialArgsInAppliesWithinFunction resolver rewriter callerBD
    stateBD
  = Done tt stateBD.
Proof.
  apply (specializeExistentialArgsInAppliesWithinFunction_nothing_to_do
           resolver rewriter callerBD stateBD).
  intros BB I HBB HI.
  apply elem_of_cons in HBB as [->|HBB];
    [|apply elem_of_cons in HBB as [->|HBB];
      [|by apply elem_of_nil in HBB]];
    simpl in HI;
    repeat (apply elem_of_cons in HI as [->|HI]);
    try (by apply elem_of_nil in HI);
    first [ left; reflexivity
          | right; eexists; split; [reflexivity|];
            first [ left; reflexivity | right; eexists; reflexivity ] ].
Defined.



(** X9: the caller that should not be optimized is left alone, although the
    loop over it would fail the assertion of the analysis. *)
Lemma run_invalid_dereference_iff_witness :
  run resolver rewriter (Some "off"%string) stateOff = Done tt stateOff ∧
  specializeExistentialArgsInAppliesWithinFunction resolver rewriter callerOff
    stateOff
  = Crash AssertionFailure.
Proof.
  split; [|reflexivity].
  destruct (run_invalid_dereference_iff resolver rewriter
              (Some "off"%string) stateOff) as [_ Hoff].
  apply (Hoff "off"%string callerOff eq_refl eq_refl). by left.
Defined.

(** X11 in scenario C with the map that has entries already. *)
Lemma canSpecializeExistentialArgsInFunction_overlay_witness :
  ∃ fresh,
    canSpecializeExistentialArgsInFunction resolver applyC ∅ stateC
    = Done (true, fresh) stateC ∧
    staleMapAfter = fresh ∪ staleMap ∧
    canSpecializeExistentialArgsInFunction resolver applyC staleMapAfter
      stateC
    = Done (true, staleMapAfter) stateC.
Proof.
  apply (canSpecializeExistentialArgsInFunction_overlay resolver applyC
           staleMap stateC true staleMapAfter stateC).
  reflexivity.
Defined.

(** X10: the analysis on its own at the call of the declaration [d], which
    has no entry block, and at the call of [a] whose first applied argument
    is at callee index 1. *)
Lemma canSpecializeExistentialArgsInFunction_failure_order_witness :
  canSpecializeExistentialArgsInFunction resolver applyD ∅ stateD
  = Crash InvalidDereference ∧
  canSpecializeExistentialArgsInFunction resolver applyA_shifted ∅ stateA
  = Crash AssertionFailure.
Proof.
  split.
  - apply (canSpecializeExistentialArgsInFunction_failure_order resolver
             applyD ∅ stateD).
    reflexivity.
  - apply (canSpecializeExistentialArgsInFunction_failure_order resolver
             applyA_shifted ∅ stateA).
    split; [by eexists|]. vm_compute. discriminate.
Defined.


